(** * Network-info resolution for units (apiserver/facades/agent/uniter)

    A shallow embedding of the network-info engine of the uniter facade:
    the shared base (egress lookup, address polling, order-preserving
    deduplication) and the CAAS request processor (networkinfocaas.go),
    followed by the properties of the specification that concern them. *)

From Equations Require Import Equations.
From stdpp Require Import gmap strings list fin_maps sorting.

Set Default Proof Using "Type*".
Set Warnings "-clear-no-such-hyp".

(** ** Errors and fallible results *)

(** Errors are kept up to their cause, which is all the code inspects,
    and their text: the not-found and not-valid errors of package
    [errors], the no-address error of package [network], and any other. *)
Inductive error : Type :=
  | ErrNotFound (msg : string)
  | ErrNotValid (msg : string)
  | ErrNoAddress (addressKind : string)
  | ErrOther (msg : string).

(** [errors.IsNotFound] reports whether the cause of the error is a
    not-found error. *)
Definition IsNotFound (err : error) : bool :=
  match err with ErrNotFound _ => true | _ => false end.

(** Modelled from the spec: [network.IsNoAddressError] (package network,
    not among the sources) reports whether the error means that the
    address is not yet assigned. *)
Definition IsNoAddressError (err : error) : bool :=
  match err with ErrNoAddress _ => true | _ => false end.

(** [errors.Trace] records the call site and keeps cause and text. *)
Definition Trace (err : error) : error := err.

(** A Go [(value, error)] return: the value is read only when the error
    is nil. *)
Inductive result (A : Type) : Type :=
  | Ok (a : A)
  | Err (err : error).
Arguments Ok {A} a.
Arguments Err {A} err.

(** ** Time and polled operations *)

(** Instants and durations of the injected clock, in time units. *)
Definition Time : Type := nat.

(** A store operation that is polled: asked at an instant, it answers
    with a result and the time it took to answer. *)
Definition fetcher (A : Type) : Type := Time → result A * Time.

(** An engine operation on the clock: entered at an instant, it returns a
    result and the instant of its return. *)
Definition timed (A : Type) : Type := Time → A * Time.

(** ** Addresses *)

Inductive AddrScope : Type :=
  | ScopeUnknown
  | ScopePublic
  | ScopeCloudLocal
  | ScopeFanLocal
  | ScopeMachineLocal
  | ScopeLinkLocal.

#[global] Instance AddrScope_eq_dec : EqDecision AddrScope.
Proof. solve_decision. Defined.

Record SpaceAddress : Type := NewScopedSpaceAddress {
  Value : string;
  Scope : AddrScope;
}.

#[global] Instance SpaceAddress_eq_dec : EqDecision SpaceAddress.
Proof. solve_decision. Defined.

Definition AlphaSpaceId : string := "0".

(** ** The entity store, as the engine reads it *)

Record RelationNetworks : Type := {
  CIDRS : list string;
}.

Record Relation : Type := {
  relTagId : string;
  (** [rel.Endpoint(applicationName)], reduced to the endpoint's name. *)
  relEndpoint : string → result string;
  (** [rel.RemoteApplication()], reduced to its cross-model flag. *)
  relRemoteApplication : result bool;
}.

Record Application : Type := {
  EndpointBindings : result (gmap string string);
  ApplicationConfig : result (gmap string string);
}.

(** The public and the private address of a unit are polled and answer
    by the instant; the other look-ups are read once per call. *)
Record Unit : Type := {
  unitName : string;
  ApplicationName : string;
  unitApplication : result Application;
  PublicAddress : fetcher SpaceAddress;
  PrivateAddress : fetcher SpaceAddress;
  AllAddresses : result (list SpaceAddress);
}.

Record State : Type := {
  (** [st.Model()] then [ModelConfig()] then [EgressSubnets()]. *)
  stModelEgressSubnets : result (list string);
  stRelation : Z → result Relation;
  (** [state.NewRelationEgressNetworks(st).Networks(key)]. *)
  stRelationEgressNetworks : string → result RelationNetworks;
}.

(** ** The retry policy and the retry loop *)

(** [retry.CallArgs], with the fields the default factory sets. The clock
    is the instant threaded through the polled functions; the bound on the
    number of attempts, which the factory leaves unset, is left out. *)
Record CallArgs : Type := {
  Delay : Time;
  MaxDuration : Time;
}.

Definition defaultRetryFactory (_ : unit) : CallArgs :=
  {| Delay := 3; MaxDuration := 30 |}.

Section Retry.
Context {A : Type} (Func : fetcher A) (IsFatalError : error → bool).

(** Modelled from the spec: the loop of [retry.Call] (package
    github.com/juju/retry, not among the sources). One attempt calls
    [Func]; a nil error ends the loop, a fatal error ends it with that
    error, and a retryable error either ends it with that error, when
    sleeping [S delay'] more would pass the budget [maxDuration] counted
    from [start], or is followed by the sleep and the next attempt. *)
Equations? retryLoop (delay' maxDuration start now : Time)
    : result A * Time by wf (start + maxDuration - now) lt :=
  retryLoop delay' maxDuration start now with Func now := {
    | (Ok a, latency) => (Ok a, now + latency)
    | (Err err, latency) with IsFatalError err := {
      | true => (Err (Trace err), now + latency)
      | false with decide (maxDuration < (now + latency - start) + S delay') := {
        | left _ => (Err err, now + latency)
        | right _ => retryLoop delay' maxDuration start (now + latency + S delay')
        }
      }
    }.
Proof. lia. Qed.

(** Modelled from the spec: [retry.Call]. The arguments are validated
    first, as the package does: a zero delay or a zero budget is
    refused with a not-valid error and [Func] is never called. *)
Definition Call (args : CallArgs) : timed (result A) := λ start,
  match Delay args with
  | 0 => (Err (ErrNotValid "missing Delay"), start)
  | S delay' =>
      if decide (MaxDuration args = 0)
      then (Err (ErrNotValid "missing Attempts or MaxDuration"), start)
      else retryLoop delay' (MaxDuration args) start start
  end.
End Retry.

(** ** The base: NetworkInfoBase *)

(** The field [unit] is written [unit_]. *)
Record NetworkInfoBase : Type := {
  st : State;
  retryFactory : unit → CallArgs;
  unit_ : Unit;
  app : Application;
  defaultEgress : list string;
  bindings : gmap string string;
}.

(** [getModelEgressSubnets] returns model configuration for egress
    subnets. *)
Definition getModelEgressSubnets (st0 : State) : result (list string) :=
  match stModelEgressSubnets st0 with
  | Err err => Err (Trace err)
  | Ok cidrs => Ok cidrs
  end.

(** [init] on a base that holds [st0] and [retryFactory0]: it fills in
    the unit, its application, the bindings and the default egress. *)
Definition init (st0 : State) (retryFactory0 : unit → CallArgs) (unit0 : Unit)
    : result NetworkInfoBase :=
  match unitApplication unit0 with
  | Err err => Err (Trace err)
  | Ok app0 =>
      match EndpointBindings app0 with
      | Err err => Err (Trace err)
      | Ok bindings0 =>
          match getModelEgressSubnets st0 with
          | Err err => Err (Trace err)
          | Ok defaultEgress0 =>
              Ok {| st := st0; retryFactory := retryFactory0; unit_ := unit0;
                    app := app0; defaultEgress := defaultEgress0;
                    bindings := bindings0 |}
          end
      end
  end.

(** [getRelationAndEndpointName] returns the relation for the input ID and
    the name of the endpoint used by the relation. *)
Definition getRelationAndEndpointName (n : NetworkInfoBase) (relationID : Z)
    : result (Relation * string) :=
  match stRelation (st n) relationID with
  | Err err => Err (Trace err)
  | Ok rel =>
      match relEndpoint rel (ApplicationName (unit_ n)) with
      | Err err => Err (Trace err)
      | Ok endpointName => Ok (rel, endpointName)
      end
  end.

(** [getRelationEgressSubnets] returns the egress CIDRs for the input
    relation; if no networks are found, the model default egress CIDRs. *)
Definition getRelationEgressSubnets (n : NetworkInfoBase) (rel : Relation)
    : result (list string) :=
  match stRelationEgressNetworks (st n) (relTagId rel) with
  | Err err =>
      if IsNotFound err then Ok (defaultEgress n) else Err (Trace err)
  | Ok egressSubnets => Ok (CIDRS egressSubnets)
  end.

(** The classification installed by [pollForAddress] in the retry
    arguments. *)
Definition pollIsFatalError (err : error) : bool :=
  negb (IsNoAddressError err).

Definition pollForAddress (n : NetworkInfoBase) (fetch : fetcher SpaceAddress)
    : timed (result SpaceAddress) :=
  let retryArg := retryFactory n () in
  Call fetch pollIsFatalError retryArg.

(** [maybeGetUnitAddress] returns an address for the member unit if the
    input relation is cross-model. The public address is preferred, with
    the private address as the fall-back. The warnings logged on a failed
    poll are not part of the model. *)
Definition maybeGetUnitAddress (n : NetworkInfoBase) (rel : Relation)
    : timed (result (list SpaceAddress)) := λ now,
  match relRemoteApplication rel with
  | Err err => (Err (Trace err), now)
  | Ok crossModel =>
      if negb crossModel then (Ok [], now)
      else
        let pollPrivate : timed (result (list SpaceAddress)) := λ now1,
          let '(polled, now2) :=
            pollForAddress n (PrivateAddress (unit_ n)) now1 in
          match polled with
          | Err _ => (Ok [], now2)
          | Ok address =>
              if decide (Value address ≠ "") then (Ok [address], now2)
              else (Ok [], now2)
          end in
        let '(polled, now1) :=
          pollForAddress n (PublicAddress (unit_ n)) now in
        match polled with
        | Err _ => pollPrivate now1
        | Ok address =>
            if decide (Value address ≠ "") then (Ok [address], now1)
            else pollPrivate now1
        end
  end.

(** ** Order-preserving deduplication *)

Section DedupLoop.
Context {A : Type} (key : A → string).

(** The loop of [dedupStringListPreservingOrder] and of [dedupAddrList]:
    [seen] is the [set.Strings] of the keys met so far and [out] the
    slice grown by [append]. *)
Fixpoint dedupLoop (seen : gset string) (out values : list A) : list A :=
  match values with
  | [] => out
  | v :: rest =>
      if decide (key v ∈ seen) then dedupLoop seen out rest
      else dedupLoop ({[key v]} ∪ seen) (out ++ [v]) rest
  end.

(** The reading of the specification's [dedupOrdered]: the element at
    index [i] stays exactly when no element before it has its key. *)
Definition keepFirstOccurrences (values : list A) : list A :=
  omap id (imap (λ i v,
    if decide (key v ∈ key <$> take i values) then None else Some v)
    values).
End DedupLoop.

Definition dedupStringListPreservingOrder (values : list string)
    : list string :=
  dedupLoop id ∅ [] values.

(** The wire types of package [params] and the device records of package
    [network] that the request processor fills in. The field [Error] of a
    result is written [Error_]. *)
Module network.
Record InterfaceAddress : Type := {
  Address : string;
  CIDR : string;
}.
Record NetworkInfo : Type := {
  MACAddress : string;
  InterfaceName : string;
  Addresses : list InterfaceAddress;
}.
End network.

Module params.
Record InterfaceAddress : Type := {
  Hostname : string;
  Address : string;
  CIDR : string;
}.
Record NetworkInfo : Type := {
  MACAddress : string;
  InterfaceName : string;
  Addresses : list InterfaceAddress;
}.
Record Error : Type := {
  Message : string;
  Code : string;
}.
Record NetworkInfoResult : Type := { Info : list NetworkInfo;
  EgressSubnets : list string;
  IngressAddresses : list string;
  Error_ : option Error;
}.
Record NetworkInfoParams : Type := {
  RelationId : option Z;
  Endpoints : list string;
}.
Record NetworkInfoResults : Type := {
  Results : gmap string NetworkInfoResult;
}.
End params.

#[global] Instance params_InterfaceAddress_eq_dec :
  EqDecision params.InterfaceAddress.
Proof. solve_decision. Defined.

Definition dedupAddrList (addrList : list params.InterfaceAddress)
    : list params.InterfaceAddress :=
  if decide (length addrList ≤ 1) then addrList
  else dedupLoop params.Address ∅ [] addrList.

Definition dedupNetworkInfoResult (res : params.NetworkInfoResult)
    : params.NetworkInfoResult :=
  match params.Error_ res with
  | Some _ => res
  | None =>
      {| params.Info :=
           (λ info, {| params.MACAddress := params.MACAddress info;
                       params.InterfaceName := params.InterfaceName info;
                       params.Addresses :=
                         dedupAddrList (params.Addresses info) |})
           <$> params.Info res;
         params.EgressSubnets :=
           dedupStringListPreservingOrder (params.EgressSubnets res);
         params.IngressAddresses :=
           dedupStringListPreservingOrder (params.IngressAddresses res);
         params.Error_ := None |}
  end.

(** [dedupNetworkInfoResults] rewrites every entry of the result map; the
    entries that carry an error are skipped. *)
Definition dedupNetworkInfoResults (info : params.NetworkInfoResults)
    : params.NetworkInfoResults :=
  {| params.Results := dedupNetworkInfoResult <$> params.Results info |}.

(** [spaceAddressesFromNetworkInfo] returns a [SpaceAddresses] collection
    from a slice of [NetworkInfo]; fan addresses are identified by the name
    of their device. *)
Definition spaceAddressesFromNetworkInfo (netInfos : list network.NetworkInfo)
    : list SpaceAddress :=
  netInfos ≫= λ nwInfo,
    let scope :=
      if String.prefix "fan-" (network.InterfaceName nwInfo)
      then ScopeFanLocal else ScopeUnknown in
    (λ addr, NewScopedSpaceAddress (network.Address addr) scope)
      <$> network.Addresses nwInfo.

(** ** Collaborators outside the sources *)

(** What the engine uses of packages [core/network], [network] and [fmt]
    and of the Go runtime, none of which is among the sources: they are
    taken as parameters.
    - [SortAddresses] is the in-place scope-aware sort of a slice of
      addresses; sorting rearranges the slice and nothing else.
    - [toCIDR] formats one bare address as a single-host CIDR and may
      refuse it.
    - [quote] is the quoting of a string by the verb [%q] of package fmt
      ([strconv.Quote]): the string between double quotes, with the
      escapes of Go for the characters that need them.
    - [rangeOrder] is the order in which a [range] loop visits the entries
      of a map: each entry once, in an order the language leaves open and
      the runtime chooses afresh for every loop. The request processor
      ranges once over its bindings, so that one instance gives the order
      of one run; a statement about two runs takes two instances, which
      may order the same map differently. *)
Class Externals : Type := {
  SortAddresses : list SpaceAddress → list SpaceAddress;
  SortAddresses_Permutation : ∀ addrs, SortAddresses addrs ≡ₚ addrs;
  toCIDR : string → result string;
  quote : string → string;
  rangeOrder : gmap string string → list (string * string);
  rangeOrder_Permutation : ∀ m, rangeOrder m ≡ₚ map_to_list m;
}.

(** The device records of one space, as the request processor keeps
    them. *)
Record machineNetworkInfoResult : Type := {
  NetworkInfos : list network.NetworkInfo;
  Error : option error;
}.

Definition ServiceTypeConfigKey : string := "kubernetes-service-type".
Definition ServiceTypeLoadBalancer : string := "LoadBalancer".
Definition ServiceTypeExternalName : string := "ExternalName".

(** Modelled from the spec: [common.ServerError] (package
    apiserver/common, not among the sources) turns an error into the
    structured error of the wire format: its text and a code that names
    its kind. *)
Definition ServerError (err : error) : params.Error :=
  match err with
  | ErrNotFound msg => {| params.Message := msg; params.Code := "not found" |}
  | ErrNotValid msg => {| params.Message := msg; params.Code := "not valid" |}
  | ErrNoAddress k =>
      {| params.Message := "no " +:+ k +:+ " address(es)"; params.Code := "" |}
  | ErrOther msg => {| params.Message := msg; params.Code := "" |}
  end.

(** Modelled from the spec: [machineNetworkInfoResultToNetworkInfoResult]
    (same package, not among the sources) builds the device info of a
    result from the device records of a space, or carries their error. *)
Definition machineNetworkInfoResultToNetworkInfoResult
    (inResult : machineNetworkInfoResult) : params.NetworkInfoResult :=
  match Error inResult with
  | Some err =>
      {| params.Info := []; params.EgressSubnets := [];
         params.IngressAddresses := [];
         params.Error_ := Some (ServerError err) |}
  | None =>
      {| params.Info :=
           (λ info, {| params.MACAddress := network.MACAddress info;
                       params.InterfaceName := network.InterfaceName info;
                       params.Addresses :=
                         (λ addr, {| params.Hostname := "";
                                     params.Address := network.Address addr;
                                     params.CIDR := network.CIDR addr |})
                         <$> network.Addresses info |})
           <$> NetworkInfos inResult;
         params.EgressSubnets := [];
         params.IngressAddresses := [];
         params.Error_ := None |}
  end.

Section Engine.
Context `{Externals}.

(** Modelled from the spec: [network.FormatAsCIDR] (package network, not
    among the sources) formats each address in turn with [toCIDR] and
    fails on the first one that is refused. *)
Fixpoint FormatAsCIDR (addresses : list string) : result (list string) :=
  match addresses with
  | [] => Ok []
  | a :: rest =>
      match toCIDR a with
      | Err err => Err (Trace err)
      | Ok cidr =>
          match FormatAsCIDR rest with
          | Err err => Err err
          | Ok cidrs => Ok (cidr :: cidrs)
          end
      end
  end.

(** [NetworksForRelation] returns the bound space and the ingress and
    egress addresses for a relation and unit. *)
Definition NetworksForRelation (n : NetworkInfoBase) (binding : string)
    (rel : Relation) (pollAddr : bool)
    : timed (result (string * list SpaceAddress * list string)) := λ now,
  match getRelationEgressSubnets n rel with
  | Err err => (Err (Trace err), now)
  | Ok egress =>
      let '(polled, now1) :=
        if pollAddr then maybeGetUnitAddress n rel now else (Ok [], now) in
      match polled with
      | Err err => (Err (Trace err), now1)
      | Ok ingress =>
          let ingress :=
            if decide (length ingress = 0) then
              match AllAddresses (unit_ n) with
              | Err _ => ingress
              | Ok addrs =>
                  ingress ++
                  filter (λ addr, Scope addr ≠ ScopeMachineLocal) addrs
              end
            else ingress in
          let ingress := SortAddresses ingress in
          match egress, ingress with
          | [], first :: _ =>
              match FormatAsCIDR [Value first] with
              | Err err => (Err (Trace err), now1)
              | Ok egress' => (Ok (AlphaSpaceId, ingress, egress'), now1)
              end
          | _, _ => (Ok (AlphaSpaceId, ingress, egress), now1)
          end
      end
  end.

(** [getRelationNetworkInfo] returns the endpoint name, network space and
    ingress/egress addresses for the input relation ID. *)
Definition getRelationNetworkInfo (n : NetworkInfoBase) (relationId : Z)
    : timed (result (string * string * list SpaceAddress * list string)) :=
  λ now,
  match getRelationAndEndpointName n relationId with
  | Err err => (Err (Trace err), now)
  | Ok (rel, endpoint) =>
      match ApplicationConfig (app n) with
      | Err err => (Err (Trace err), now)
      | Ok cfg =>
          let svcType := default "" (cfg !! ServiceTypeConfigKey) in
          let pollAddr :=
            bool_decide (svcType = ServiceTypeLoadBalancer
                         ∨ svcType = ServiceTypeExternalName) in
          match NetworksForRelation n endpoint rel pollAddr now with
          | (Err err, now1) => (Err (Trace err), now1)
          | (Ok (space, ingress, egress), now1) =>
              (Ok (endpoint, space, ingress, egress), now1)
          end
      end
  end.

(** *** The CAAS request processor: ProcessAPIRequest *)

(** The maps filled by the first loop: the local [bindings], the
    endpoint egress map and the results. *)
Record requestMaps : Type := {
  boundSpaces : gmap string string;
  endpointEgressSubnets : gmap string (list string);
  results : gmap string params.NetworkInfoResult;
}.

(** The result of a requested endpoint that the application does not
    bind: nothing but a not-valid error that names the endpoint. *)
Definition bindingNotValid (endpoint : string) : params.NetworkInfoResult :=
  let err := ErrNotValid
    ("binding name " +:+ quote endpoint
     +:+ " not defined by the unit's charm") in
  {| params.Info := []; params.EgressSubnets := [];
     params.IngressAddresses := [];
     params.Error_ := Some (ServerError err) |}.

(** One turn of the first loop: the requested endpoint gets its bound
    space or a not-valid error, and the model's egress subnets. *)
Definition validateEndpoint (n : NetworkInfoBase) (maps : requestMaps)
    (endpoint : string) : requestMaps :=
  match bindings n !! endpoint with
  | Some binding =>
      {| boundSpaces := <[endpoint := binding]> (boundSpaces maps);
         endpointEgressSubnets :=
           <[endpoint := defaultEgress n]> (endpointEgressSubnets maps);
         results := results maps |}
  | None =>
      {| boundSpaces := boundSpaces maps;
         endpointEgressSubnets :=
           <[endpoint := defaultEgress n]> (endpointEgressSubnets maps);
         results := <[endpoint := bindingNotValid endpoint]> (results maps) |}
  end.

(** One turn of the second loop, for a bound endpoint: the device info
    of its space, then egress and ingress with their fall-backs. *)
Definition endpointResult
    (networkInfos : gmap string machineNetworkInfoResult)
    (egressSubnets : gmap string (list string))
    (endpointIngressAddresses : gmap string (list SpaceAddress))
    (defaultIngressAddresses : list string)
    (endpoint space : string) : result params.NetworkInfoResult :=
  let spaceInfo :=
    default {| NetworkInfos := []; Error := None |} (networkInfos !! space) in
  let info := machineNetworkInfoResultToNetworkInfoResult spaceInfo in
  let egress := default [] (egressSubnets !! endpoint) in
  let ingressAddrs :=
    Value <$> default [] (endpointIngressAddresses !! endpoint) in
  let ingressAddrs :=
    if decide (length ingressAddrs = 0) then defaultIngressAddresses
    else ingressAddrs in
  let ingressAddrs :=
    if decide (length ingressAddrs = 0) then
      Value <$> SortAddresses
        (spaceAddressesFromNetworkInfo (NetworkInfos spaceInfo))
    else ingressAddrs in
  let finish (egress' : list string) : params.NetworkInfoResult :=
    {| params.Info := params.Info info;
       params.EgressSubnets := egress';
       params.IngressAddresses := ingressAddrs;
       params.Error_ := params.Error_ info |} in
  match egress, ingressAddrs with
  | [], first :: _ =>
      match FormatAsCIDR [first] with
      | Err err => Err err
      | Ok egress' => Ok (finish egress')
      end
  | _, _ => Ok (finish egress)
  end.

(** The second loop over the local bindings, in the order the [range]
    visits them; a refused address ends it with the results so far. *)
Fixpoint assembleResults
    (body : string → string → result params.NetworkInfoResult)
    (order : list (string * string))
    (results0 : gmap string params.NetworkInfoResult)
    : gmap string params.NetworkInfoResult * option error :=
  match order with
  | [] => (results0, None)
  | (endpoint, space) :: rest =>
      match body endpoint space with
      | Err err => (results0, Some err)
      | Ok info => assembleResults body rest (<[endpoint := info]> results0)
      end
  end.

(** The unit's sorted addresses, partitioned: the machine-local ones
    become the interface addresses of the single device of the alpha
    space, the others the default ingress addresses. *)
Definition interfaceAddrOf (addrs : list SpaceAddress)
    : list network.InterfaceAddress :=
  (λ a, {| network.Address := Value a; network.CIDR := "" |})
  <$> filter (λ a, Scope a = ScopeMachineLocal) addrs.

Definition defaultIngressAddressesOf (addrs : list SpaceAddress)
    : list string :=
  Value <$> filter (λ a, Scope a ≠ ScopeMachineLocal) addrs.

Definition networkInfosOf (addrs : list SpaceAddress)
    : gmap string machineNetworkInfoResult :=
  {[ AlphaSpaceId :=
       {| NetworkInfos :=
            [ {| network.MACAddress := "";
                 network.InterfaceName := "";
                 network.Addresses := interfaceAddrOf addrs |} ];
          Error := None |} ]}.

(** The part of [ProcessAPIRequest] after the relation has been looked
    at: the unit's addresses, their partition, the second loop and the
    deduplication. *)
Definition assembleFromAddresses (n : NetworkInfoBase) (maps : requestMaps)
    (endpointIngressAddresses : gmap string (list SpaceAddress))
    : params.NetworkInfoResults * option error :=
  match AllAddresses (unit_ n) with
  | Err err => ({| params.Results := ∅ |}, Some err)
  | Ok addrs =>
      let addrs := SortAddresses addrs in
      match assembleResults
              (endpointResult (networkInfosOf addrs)
                 (endpointEgressSubnets maps) endpointIngressAddresses
                 (defaultIngressAddressesOf addrs))
              (rangeOrder (boundSpaces maps)) (results maps) with
      | (partial, Some err) =>
          ({| params.Results := partial |}, Some (Trace err))
      | (all, None) =>
          (dedupNetworkInfoResults {| params.Results := all |}, None)
      end
  end.

(** The first loop of [ProcessAPIRequest], over the requested
    endpoints. *)
Definition requestedEndpoints (n : NetworkInfoBase) (endpoints : list string)
    : requestMaps :=
  foldl (validateEndpoint n)
    {| boundSpaces := ∅; endpointEgressSubnets := ∅; results := ∅ |}
    endpoints.

(** The egress resolved for a relation replaces the egress of the
    relation's endpoint when it is not empty. *)
Definition setRelationEgress (maps : requestMaps) (endpoint : string)
    (egress : list string) : requestMaps :=
  if decide (0 < length egress) then
    {| boundSpaces := boundSpaces maps;
       endpointEgressSubnets :=
         <[endpoint := egress]> (endpointEgressSubnets maps);
       results := results maps |}
  else maps.

(** [ProcessAPIRequest] handles a request to the uniter API NetworkInfo
    method. *)
Definition ProcessAPIRequest (n : NetworkInfoBase)
    (args : params.NetworkInfoParams)
    : timed (params.NetworkInfoResults * option error) := λ now,
  let maps := requestedEndpoints n (params.Endpoints args) in
  match params.RelationId args with
  | Some relationId =>
      match getRelationNetworkInfo n relationId now with
      | (Err err, now1) => (({| params.Results := ∅ |}, Some err), now1)
      | (Ok (endpoint, _, ingress, egress), now1) =>
          (assembleFromAddresses n (setRelationEgress maps endpoint egress)
             {[ endpoint := ingress ]}, now1)
      end
  | None => (assembleFromAddresses n maps ∅, now)
  end.
End Engine.

(** ** The LXD profile API of the agents (api/common/lxdprofile.go) *)

Module lxdprofile.
(** One entry of [params.UpgradeCharmProfileStatusResults]; its field
    [Error] is written [Error_]. *)
Record UpgradeCharmProfileStatusResult : Type := {
  Error_ : option params.Error;
  Status : string;
}.

(** What a call can fail with: the error of the facade call, the error
    carried by a result, or that error wrapped as not-found. *)
Inductive callError : Type :=
  | FacadeError (err : error)
  | ResultError (err : params.Error)
  | NotFoundError (cause : params.Error).

(** [LXDProfileAPI]: the facade answers the request of a given name for
    the given entity tags. *)
Record LXDProfileAPI : Type := {
  facade : string → list string
           → result (list UpgradeCharmProfileStatusResult);
  tag : string;
}.

Section Status.
(** [params.IsCodeNotFound] is not among the sources: it is a
    parameter. *)
Context (IsCodeNotFound : params.Error → bool).

(** The loop of [UpgradeCharmProfileUnitStatus] over the results, with the
    statuses collected so far. *)
Fixpoint collectStatuses (statuses : list string)
    (results : list UpgradeCharmProfileStatusResult)
    : list string + callError :=
  match results with
  | [] => inl statuses
  | res :: rest =>
      match Error_ res with
      | Some err =>
          if IsCodeNotFound err then inr (NotFoundError err)
          else inr (ResultError err)
      | None => collectStatuses (statuses ++ [Status res]) rest
      end
  end.

(** [UpgradeCharmProfileUnitStatus] returns the lxd profile status of a
    unit from remote state. *)
Definition UpgradeCharmProfileUnitStatus (u : LXDProfileAPI)
    : list string + callError :=
  match facade u "UpgradeCharmProfileUnitStatus" [tag u] with
  | Err err => inr (FacadeError err)
  | Ok results => collectStatuses [] results
  end.
End Status.
End lxdprofile.

(** ** Attempts of the retry loop *)

(** The instant at which the attempt of index [k] starts, when the
    attempts before it failed and were each followed by a sleep of
    [delay]. *)
Fixpoint attemptInstant {A : Type} (fetch : fetcher A) (delay start : Time)
    (k : nat) : Time :=
  match k with
  | 0 => start
  | S k' =>
      let now := attemptInstant fetch delay start k' in
      now + snd (fetch now) + delay
  end.

(** ** A concrete instance of the collaborators, and sample data *)

(** Modelled from the spec: the scope-aware sort is a stable sort
    ascending by scope rank, public first and unknown last. *)
Definition scopeRank (scope : AddrScope) : nat :=
  match scope with
  | ScopePublic => 0
  | ScopeCloudLocal => 1
  | ScopeMachineLocal => 2
  | ScopeLinkLocal => 3
  | ScopeFanLocal => 4
  | ScopeUnknown => 5
  end.

Definition scopeLe (a b : SpaceAddress) : Prop :=
  scopeRank (Scope a) ≤ scopeRank (Scope b).

#[global] Instance scopeLe_dec : RelDecision scopeLe.
Proof. intros a b. unfold scopeLe. apply _. Defined.

Definition sortByScope (addrs : list SpaceAddress) : list SpaceAddress :=
  merge_sort scopeLe addrs.

(** A formatter that takes every non-empty address for an IPv4 address. *)
Definition toCIDR32 (address : string) : result string :=
  if decide (address = "") then Err (ErrOther "empty address")
  else Ok (address +:+ "/32").

(** The quoting of a name that has no character to escape: the name
    between double quotes. *)
Definition quotePlain (s : string) : string :=
  String (Ascii.ascii_of_nat 34) (s +:+ String (Ascii.ascii_of_nat 34) "").

Definition sampleExternals : Externals := {|
  SortAddresses := sortByScope;
  SortAddresses_Permutation := merge_sort_Permutation _;
  toCIDR := toCIDR32;
  quote := quotePlain;
  rangeOrder := map_to_list;
  rangeOrder_Permutation := λ m, reflexivity (map_to_list m);
|}.

(** The same collaborators with a runtime that ranges over a map in the
    opposite order. *)
Definition reversedExternals : Externals := {|
  SortAddresses := sortByScope;
  SortAddresses_Permutation := merge_sort_Permutation _;
  toCIDR := toCIDR32;
  quote := quotePlain;
  rangeOrder := λ m, reverse (map_to_list m);
  rangeOrder_Permutation := λ m, reverse_Permutation (map_to_list m);
|}.

Definition sampleAddrs : list SpaceAddress :=
  [ NewScopedSpaceAddress "127.0.0.1" ScopeMachineLocal;
    NewScopedSpaceAddress "10.1.2.3" ScopeCloudLocal;
    NewScopedSpaceAddress "54.1.2.3" ScopePublic ].

(** A unit whose public address never comes and whose private address
    comes at instant 36. *)
Definition sampleUnit : Unit := {|
  unitName := "wordpress/0";
  ApplicationName := "wordpress";
  unitApplication := Err (ErrNotFound "application");
  PublicAddress := λ _, (Err (ErrNoAddress "public"), 0);
  PrivateAddress := λ now,
    if decide (now < 36) then (Err (ErrNoAddress "private"), 0)
    else (Ok (NewScopedSpaceAddress "10.1.2.3" ScopeCloudLocal), 0);
  AllAddresses := Ok sampleAddrs;
|}.

Definition sampleRelation : Relation := {|
  relTagId := "wordpress:db mysql:server";
  relEndpoint := λ _, Ok "db";
  relRemoteApplication := Ok true;
|}.

Definition sampleState : State := {|
  stModelEgressSubnets := Ok ["0.0.0.0/0"];
  stRelation := λ id,
    if decide (id = 7%Z) then Ok sampleRelation
    else Err (ErrNotFound "relation");
  stRelationEgressNetworks := λ key,
    if decide (key = "wordpress:db mysql:server")
    then Ok {| CIDRS := ["10.0.0.0/24"] |}
    else Err (ErrNotFound "egress networks");
|}.

Definition sampleApplication : Application := {|
  EndpointBindings := Ok {[ "db" := "0"; "website" := "0" ]};
  ApplicationConfig := Ok {[ ServiceTypeConfigKey := ServiceTypeLoadBalancer ]};
|}.

Definition sampleBase : NetworkInfoBase := {|
  st := sampleState;
  retryFactory := defaultRetryFactory;
  unit_ := sampleUnit;
  app := sampleApplication;
  defaultEgress := ["0.0.0.0/0"];
  bindings := {[ "db" := "0"; "website" := "0" ]};
|}.

(** A fetch that never finds an address and takes 31 time units to say
    so. *)
Definition slowFetch : fetcher SpaceAddress :=
  λ _, (Err (ErrNoAddress "public"), 31).

(** A fetch that finds no address before instant 6 and then loses its
    connection to the store. *)
Definition flakyFetch : fetcher SpaceAddress := λ now,
  if decide (now < 6) then (Err (ErrNoAddress "public"), 0)
  else (Err (ErrOther "connection lost"), 1).

(** A unit whose public address is known but has no value yet, and whose
    private address is not assigned. *)
Definition emptyPublicUnit : Unit := {|
  unitName := "wordpress/1";
  ApplicationName := "wordpress";
  unitApplication := Ok sampleApplication;
  PublicAddress := λ _, (Ok (NewScopedSpaceAddress "" ScopePublic), 1);
  PrivateAddress := λ _, (Err (ErrNoAddress "private"), 0);
  AllAddresses := Ok sampleAddrs;
|}.

Definition emptyPublicBase : NetworkInfoBase := {|
  st := sampleState;
  retryFactory := defaultRetryFactory;
  unit_ := emptyPublicUnit;
  app := sampleApplication;
  defaultEgress := ["0.0.0.0/0"];
  bindings := {[ "db" := "0"; "website" := "0" ]};
|}.




(** Two requests: one names an endpoint that the application does not
    bind, the other is made in the context of relation 7. *)
Definition sampleRequest : params.NetworkInfoParams := {|
  params.RelationId := None;
  params.Endpoints := ["db"; "admin"];
|}.

Definition sampleRelationRequest : params.NetworkInfoParams := {|
  params.RelationId := Some 7%Z;
  params.Endpoints := ["db"; "website"];
|}.

(** A model with no egress configured and no override for any
    relation. *)
Definition openState : State := {|
  stModelEgressSubnets := Ok [];
  stRelation := stRelation sampleState;
  stRelationEgressNetworks := λ _, Err (ErrNotFound "egress networks");
|}.

Definition openBase : NetworkInfoBase := {|
  st := openState;
  retryFactory := defaultRetryFactory;
  unit_ := sampleUnit;
  app := sampleApplication;
  defaultEgress := [];
  bindings := {[ "db" := "0"; "website" := "0" ]};
|}.

(** A unit as the sample one whose only address has no value yet, and a
    base for it in the model with no egress. *)
Definition blankUnit : Unit := {|
  unitName := "wordpress/3";
  ApplicationName := "wordpress";
  unitApplication := Ok sampleApplication;
  PublicAddress := PublicAddress sampleUnit;
  PrivateAddress := PrivateAddress sampleUnit;
  AllAddresses := Ok [NewScopedSpaceAddress "" ScopePublic];
|}.

Definition blankBase : NetworkInfoBase := {|
  st := openState;
  retryFactory := defaultRetryFactory;
  unit_ := blankUnit;
  app := sampleApplication;
  defaultEgress := [];
  bindings := {[ "db" := "0"; "website" := "0" ]};
|}.

(** An application that sets no service type, and a base for it. *)
Definition clusterApplication : Application := {|
  EndpointBindings := Ok {[ "db" := "0"; "website" := "0" ]};
  ApplicationConfig := Ok ∅;
|}.

Definition clusterBase : NetworkInfoBase := {|
  st := sampleState;
  retryFactory := defaultRetryFactory;
  unit_ := sampleUnit;
  app := clusterApplication;
  defaultEgress := ["0.0.0.0/0"];
  bindings := {[ "db" := "0"; "website" := "0" ]};
|}.

(** The entry of the endpoint "db" in the response to the sample
    request. *)
Definition sampleDbEntry : params.NetworkInfoResult := {|
  params.Info :=
    [ {| params.MACAddress := ""; params.InterfaceName := "";
         params.Addresses :=
           [ {| params.Hostname := ""; params.Address := "127.0.0.1";
                params.CIDR := "" |} ] |} ];
  params.EgressSubnets := ["0.0.0.0/0"];
  params.IngressAddresses := ["54.1.2.3"; "10.1.2.3"];
  params.Error_ := None;
|}.

Definition samplePlainRequest : params.NetworkInfoParams := {|
  params.RelationId := None;
  params.Endpoints := ["db"; "website"];
|}.

(** A facade that answers with two statuses and then a result that is
    not found. *)
Definition sampleLXDProfileAPI : lxdprofile.LXDProfileAPI := {|
  lxdprofile.facade := λ _ _,
    Ok [ {| lxdprofile.Error_ := None; lxdprofile.Status := "success" |};
         {| lxdprofile.Error_ := None; lxdprofile.Status := "not required" |};
         {| lxdprofile.Error_ :=
              Some {| params.Message := "unit gone";
                      params.Code := "not found" |};
            lxdprofile.Status := "" |} ];
  lxdprofile.tag := "unit-wordpress-0";
|}.

(** * Properties *)

(** ** Deduplication keeps the first occurrence of every key *)

Section DedupFacts.
Context {A : Type} (key : A → string).
Implicit Types (seen : gset string) (out values : list A).

Lemma dedupLoop_out seen out values :
  dedupLoop key seen out values = out ++ dedupLoop key seen [] values.
Proof.
  revert seen out. induction values as [|v rest IH]; intros seen out; simpl.
  - by rewrite app_nil_r.
  - case_decide; [apply IH|].
    rewrite (IH _ (out ++ [v])), (IH _ [v]). by rewrite <- app_assoc.
Qed.

Lemma dedupLoop_cons seen v rest :
  dedupLoop key seen [] (v :: rest) =
    if decide (key v ∈ seen) then dedupLoop key seen [] rest
    else v :: dedupLoop key ({[key v]} ∪ seen) [] rest.
Proof. simpl. case_decide; [done|]. by rewrite dedupLoop_out. Qed.

Lemma dedupLoop_sublist seen values :
  dedupLoop key seen [] values `sublist_of` values.
Proof.
  revert seen. induction values as [|v rest IH]; intros seen.
  - constructor.
  - rewrite dedupLoop_cons. case_decide.
    + by apply sublist_cons.
    + by apply sublist_skip.
Qed.

Lemma dedupLoop_keys seen values k :
  k ∈ key <$> dedupLoop key seen [] values ↔ k ∈ key <$> values ∧ k ∉ seen.
Proof.
  revert seen. induction values as [|v rest IH]; intros seen.
  - simpl. set_solver.
  - rewrite dedupLoop_cons. case_decide; rewrite ?fmap_cons, ?elem_of_cons, IH.
    + set_solver.
    + destruct (decide (k = key v)); set_solver.
Qed.

Lemma dedupLoop_NoDup seen values :
  NoDup (key <$> dedupLoop key seen [] values).
Proof.
  revert seen. induction values as [|v rest IH]; intros seen.
  - constructor.
  - rewrite dedupLoop_cons. case_decide; [apply IH|].
    rewrite fmap_cons. constructor; [|apply IH].
    rewrite dedupLoop_keys. set_solver.
Qed.

(** On a list whose keys are distinct and unseen the loop changes
    nothing. *)
Lemma dedupLoop_fixed seen values :
  NoDup (key <$> values) → (∀ k, k ∈ key <$> values → k ∉ seen) →
  dedupLoop key seen [] values = values.
Proof.
  revert seen. induction values as [|v rest IH]; intros seen Hnd Hseen.
  - done.
  - rewrite dedupLoop_cons. rewrite fmap_cons in Hnd, Hseen.
    apply NoDup_cons in Hnd as [Hv Hnd].
    rewrite decide_False by (apply Hseen; left).
    f_equal. apply IH; [done|].
    intros k Hk. specialize (Hseen k (list_elem_of_further _ _ _ Hk)).
    set_solver.
Qed.

Lemma dedupLoop_idemp values :
  dedupLoop key ∅ [] (dedupLoop key ∅ [] values) = dedupLoop key ∅ [] values.
Proof. apply dedupLoop_fixed; [apply dedupLoop_NoDup|set_solver]. Qed.

(** Two guards that hold for the same elements select the same ones. *)
Local Ltac same_decision :=
  repeat case_decide; try done; exfalso;
  rewrite ?elem_of_cons, ?elem_of_union, ?elem_of_singleton,
    ?elem_of_empty, ?elem_of_nil in *;
  intuition congruence.

Lemma dedupLoop_keepFirst seen values :
  dedupLoop key seen [] values =
    omap id (imap (λ i v,
      if decide (key v ∈ seen ∨ key v ∈ key <$> take i values)
      then None else Some v) values).
Proof.
  revert seen. induction values as [|v rest IH]; intros seen; [done|].
  rewrite dedupLoop_cons, imap_cons. cbn [omap take fmap list_fmap].
  case_decide as Hv.
  - rewrite decide_True by (by left). cbn. rewrite IH. f_equal.
    apply imap_ext. intros i w _. cbn.
    same_decision.
  - rewrite decide_False by set_solver. cbn. f_equal. rewrite IH. f_equal.
    apply imap_ext. intros i w _. cbn.
    same_decision.
Qed.

Lemma dedupLoop_keepFirstOccurrences values :
  dedupLoop key ∅ [] values = keepFirstOccurrences key values.
Proof.
  rewrite dedupLoop_keepFirst. unfold keepFirstOccurrences. f_equal.
  apply imap_ext. intros i w _. cbn.
  do 2 case_decide; try done; exfalso; set_solver.
Qed.
End DedupFacts.

Lemma dedupAddrList_loop (addrList : list params.InterfaceAddress) :
  dedupAddrList addrList = dedupLoop params.Address ∅ [] addrList.
Proof.
  unfold dedupAddrList. case_decide as Hlen; [|done].
  destruct addrList as [|a [|b rest]]; simpl in *; [done| |lia].
  by rewrite decide_False by set_solver.
Qed.

(** C3. Both deduplications are idempotent; their output is a subsequence
    of the input made of exactly the first occurrence of every key, so it
    has no duplicate key and keeps every key of the input; and the ingress
    and egress lists of a deduplicated result have no duplicates. *)
Theorem dedup_keeps_first_occurrences :
  (∀ values : list string,
     let out := dedupStringListPreservingOrder values in
     dedupStringListPreservingOrder out = out
     ∧ out `sublist_of` values
     ∧ out = keepFirstOccurrences id values
     ∧ NoDup out
     ∧ (∀ v, v ∈ out ↔ v ∈ values))
  ∧ (∀ addrList : list params.InterfaceAddress,
     let out := dedupAddrList addrList in
     dedupAddrList out = out
     ∧ out `sublist_of` addrList
     ∧ out = keepFirstOccurrences params.Address addrList
     ∧ NoDup (params.Address <$> out)
     ∧ (∀ k, k ∈ params.Address <$> out ↔ k ∈ params.Address <$> addrList))
  ∧ (∀ info egress ingress,
     let res := dedupNetworkInfoResult
       {| params.Info := info; params.EgressSubnets := egress;
          params.IngressAddresses := ingress; params.Error_ := None |} in
     NoDup (params.IngressAddresses res)
     ∧ params.IngressAddresses res `sublist_of` ingress
     ∧ NoDup (params.EgressSubnets res)
     ∧ params.EgressSubnets res `sublist_of` egress).
Proof.
  split; [|split].
  - intros values out. subst out. unfold dedupStringListPreservingOrder.
    split; [apply dedupLoop_idemp|].
    split; [apply dedupLoop_sublist|].
    split; [apply dedupLoop_keepFirstOccurrences|].
    split.
    + rewrite <- (list_fmap_id (dedupLoop id ∅ [] values)).
      apply (dedupLoop_NoDup id).
    + intros v. pose proof (dedupLoop_keys id ∅ values v) as Hk.
      rewrite !list_fmap_id in Hk. set_solver.
  - intros addrList out. subst out. rewrite !dedupAddrList_loop.
    split; [apply dedupLoop_idemp|].
    split; [apply dedupLoop_sublist|].
    split; [apply dedupLoop_keepFirstOccurrences|].
    split; [apply dedupLoop_NoDup|].
    intros k. rewrite dedupLoop_keys. set_solver.
  - intros info egress ingress res. subst res. cbn.
    unfold dedupStringListPreservingOrder.
    repeat split; try apply dedupLoop_sublist.
    + rewrite <- (list_fmap_id (dedupLoop id ∅ [] ingress)).
      apply (dedupLoop_NoDup id).
    + rewrite <- (list_fmap_id (dedupLoop id ∅ [] egress)).
      apply (dedupLoop_NoDup id).
Qed.

Example dedupStringListPreservingOrder_example :
  dedupStringListPreservingOrder ["10.0.0.1"; "10.0.0.2"; "10.0.0.1"]
  = ["10.0.0.1"; "10.0.0.2"].
Proof. vm_compute. reflexivity. Qed.

(** ** The retry loop *)

Section RetryFacts.
Context {A : Type} (Func : fetcher A) (IsFatalError : error → bool).
Implicit Types (maxDuration start now : Time).

(** One turn of the loop. *)
Lemma retryLoop_step (delay' : Time) maxDuration start now :
  retryLoop Func IsFatalError delay' maxDuration start now =
    match Func now with
    | (Ok a, latency) => (Ok a, now + latency)
    | (Err err, latency) =>
        if IsFatalError err then (Err err, now + latency)
        else if decide (maxDuration < (now + latency - start) + S delay')
        then (Err err, now + latency)
        else retryLoop Func IsFatalError delay' maxDuration start
               (now + latency + S delay')
    end.
Proof.
  simp retryLoop. destruct (Func now) as [[a|err] latency]; cbn; [done|].
  destruct (IsFatalError err); cbn; [done|].
  by destruct (decide _).
Qed.
Lemma attemptInstant_shift (delay now : Time) k :
  attemptInstant Func delay now (S k) =
    attemptInstant Func delay (now + snd (Func now) + delay) k.
Proof. induction k as [|k IH]; [done|]. cbn in *. by rewrite IH. Qed.

Lemma attemptInstant_ge (delay now : Time) k :
  now + k * delay ≤ attemptInstant Func delay now k.
Proof. induction k as [|k IH]; cbn in *; lia. Qed.

(** Attempts that fail with an error that is not fatal, each with room
    left in the budget for the sleep, lead to the next attempt. *)
Lemma retryLoop_skip (delay' : Time) maxDuration start now k :
  (∀ j, j < k → ∃ err latency,
      Func (attemptInstant Func (S delay') now j) = (Err err, latency)
      ∧ IsFatalError err = false
      ∧ attemptInstant Func (S delay') now j + latency - start + S delay'
        ≤ maxDuration) →
  retryLoop Func IsFatalError delay' maxDuration start now =
    retryLoop Func IsFatalError delay' maxDuration start
      (attemptInstant Func (S delay') now k).
Proof.
  induction k as [|k IH]; intros Hfail; [done|].
  rewrite IH by (intros j Hj; apply Hfail; lia).
  destruct (Hfail k) as (err & latency & Hk & Hretry & Hroom); [lia|].
  rewrite retryLoop_step, Hk, Hretry.
  rewrite decide_False by lia. cbn [attemptInstant]. by rewrite Hk.
Qed.

(** When every attempt fails with an error that is not fatal, the loop
    gives up at some attempt: the one after which the sleep would pass
    the budget. *)
Lemma retryLoop_gives_up (delay' : Time) maxDuration start :
  (∀ t, ∃ err latency, Func t = (Err err, latency)
                       ∧ IsFatalError err = false) →
  ∀ now, start ≤ now →
  ∃ k err latency,
    let last := attemptInstant Func (S delay') now k in
    Func last = (Err err, latency)
    ∧ retryLoop Func IsFatalError delay' maxDuration start now
      = (Err err, last + latency)
    ∧ (k = 0 ∨ last ≤ start + maxDuration).
Proof.
  intros Hfail now.
  remember (start + maxDuration - now) as room eqn:Hroom.
  revert now Hroom.
  induction room as [room IH] using lt_wf_ind. intros now -> Hnow.
  destruct (Hfail now) as (err & latency & Hf & Hretry).
  rewrite retryLoop_step, Hf, Hretry.
  case_decide as Hover.
  - exists 0, err, latency. cbn. auto.
  - destruct (IH (start + maxDuration - (now + latency + S delay')))
      with (now := now + latency + S delay')
      as (k & err' & latency' & Hlast & Hloop & Hbound); [lia|done|lia|].
    exists (S k), err', latency'. cbn zeta in *.
    rewrite attemptInstant_shift, Hf. cbn [snd].
    split; [done|]. split; [done|]. right.
    destruct Hbound as [->|Hbound]; [cbn; lia|done].
Qed.
End RetryFacts.

(** ** Polling *)

(** C1, as amended. With a retry policy of positive delay and budget and a
    fetch that always fails with the no-address error, [pollForAddress]
    returns: it gives up at an attempt that starts no later than the
    budget after the start of the poll, after at most budget/delay sleeps,
    and returns the no-address error of that last attempt at the instant
    the attempt ends, that is within the budget plus the latency of one
    fetch. *)
Theorem pollForAddress_gives_up_within_budget
    (n : NetworkInfoBase) (fetch : fetcher SpaceAddress) (start : Time) :
  let args := retryFactory n () in
  0 < Delay args → 0 < MaxDuration args →
  (∀ t, ∃ kind latency, fetch t = (Err (ErrNoAddress kind), latency)) →
  ∃ k kind latency,
    let last := attemptInstant fetch (Delay args) start k in
    fetch last = (Err (ErrNoAddress kind), latency)
    ∧ pollForAddress n fetch start = (Err (ErrNoAddress kind), last + latency)
    ∧ last ≤ start + MaxDuration args
    ∧ last + latency ≤ start + MaxDuration args + latency
    ∧ k * Delay args ≤ MaxDuration args.
Proof.
  intros args Hdelay Hbudget Hfail. unfold pollForAddress, Call.
  fold args. destruct (Delay args) as [|delay'] eqn:Hd; [lia|].
  rewrite decide_False by lia.
  destruct (retryLoop_gives_up fetch pollIsFatalError delay'
              (MaxDuration args) start) with (now := start)
    as (k & err & latency & Hlast & Hloop & Hbound); [|done|].
  { intros t. destruct (Hfail t) as (kind & latency & ->). eauto. }
  cbn zeta in *.
  destruct (Hfail (attemptInstant fetch (S delay') start k))
    as (kind & latency' & Hk).
  rewrite Hk in Hlast. injection Hlast as <- <-.
  exists k, kind, latency'. cbn zeta. rewrite Hk, Hloop.
  pose proof (attemptInstant_ge fetch (S delay') start k) as Hge.
  assert (attemptInstant fetch (S delay') start k
          ≤ start + MaxDuration args) as Hle.
  { destruct Hbound as [->|]; [cbn; lia|done]. }
  repeat split; try done; lia.
Qed.

Lemma pollForAddress_gives_up_within_budget_witness :
  ∃ k kind latency,
    let last := attemptInstant slowFetch 3 0 k in
    slowFetch last = (Err (ErrNoAddress kind), latency)
    ∧ pollForAddress sampleBase slowFetch 0
      = (Err (ErrNoAddress kind), last + latency)
    ∧ last ≤ 0 + 30
    ∧ last + latency ≤ 0 + 30 + latency
    ∧ k * 3 ≤ 30.
Proof.
  apply (pollForAddress_gives_up_within_budget sampleBase slowFetch 0).
  - simpl. lia.
  - simpl. lia.
  - intros t. exists "public", 31. reflexivity.
Defined.

(** C1, as stated, fails for a slow fetch: with the default policy (delay
    3, budget 30) and a fetch that takes 31 time units to report that no
    address is assigned, the poll returns after 31 time units. *)
Lemma pollForAddress_slow_fetch_exceeds_budget :
  (∀ t, slowFetch t = (Err (ErrNoAddress "public"), 31))
  ∧ retryFactory sampleBase () = {| Delay := 3; MaxDuration := 30 |}
  ∧ pollForAddress sampleBase slowFetch 0 = (Err (ErrNoAddress "public"), 31)
  ∧ ¬ (snd (pollForAddress sampleBase slowFetch 0)
       ≤ 0 + MaxDuration (retryFactory sampleBase ())).
Proof.
  split; [done|]. split; [done|].
  assert (pollForAddress sampleBase slowFetch 0
          = (Err (ErrNoAddress "public"), 31)) as Heq by (vm_compute; done).
  split; [done|]. rewrite Heq. cbn. lia.
Qed.

(** C2. [pollForAddress] treats an error of the fetch as fatal exactly
    when it is not the no-address error. After any number of attempts that
    failed with the no-address error with room left in the budget, an
    attempt that fails with another error ends the poll at once, at the
    instant that attempt ends, with that error; an attempt that succeeds
    ends it with the address; and one more no-address error with room
    left in the budget is followed by a further attempt. *)
Theorem pollForAddress_retries_only_no_address
    (n : NetworkInfoBase) (fetch : fetcher SpaceAddress) (start : Time)
    (k : nat) :
  let args := retryFactory n () in
  let attempt := attemptInstant fetch (Delay args) start in
  0 < Delay args → 0 < MaxDuration args →
  (∀ j, j < k → ∃ err latency,
      fetch (attempt j) = (Err err, latency)
      ∧ IsNoAddressError err = true
      ∧ attempt j + latency - start + Delay args ≤ MaxDuration args) →
  (∀ err, pollIsFatalError err = true ↔ IsNoAddressError err = false)
  ∧ (∀ err latency,
       fetch (attempt k) = (Err err, latency) →
       IsNoAddressError err = false →
       pollForAddress n fetch start = (Err err, attempt k + latency))
  ∧ (∀ address latency,
       fetch (attempt k) = (Ok address, latency) →
       pollForAddress n fetch start = (Ok address, attempt k + latency))
  ∧ (∀ err latency,
       fetch (attempt k) = (Err err, latency) →
       IsNoAddressError err = true →
       attempt k + latency - start + Delay args ≤ MaxDuration args →
       pollForAddress n fetch start =
         retryLoop fetch pollIsFatalError (Delay args - 1) (MaxDuration args)
           start (attempt (S k))).
Proof.
  intros args attempt Hdelay Hbudget Hfail. subst attempt.
  split.
  { intros err. unfold pollIsFatalError. by destruct (IsNoAddressError err). }
  unfold pollForAddress, Call. fold args.
  destruct (Delay args) as [|delay'] eqn:Hd; [lia|].
  rewrite decide_False by lia.
  assert (Hskip : ∀ k', k' ≤ S k →
    (∀ j, j < k' → ∃ err latency,
        fetch (attemptInstant fetch (S delay') start j) = (Err err, latency)
        ∧ IsNoAddressError err = true
        ∧ attemptInstant fetch (S delay') start j + latency - start
          + S delay' ≤ MaxDuration args) →
    retryLoop fetch pollIsFatalError delay' (MaxDuration args) start start =
      retryLoop fetch pollIsFatalError delay' (MaxDuration args) start
        (attemptInstant fetch (S delay') start k')).
  { intros k' _ Hk'. apply retryLoop_skip. intros j Hj.
    destruct (Hk' j Hj) as (err & latency & Hf & Hno & Hroom).
    exists err, latency. unfold pollIsFatalError. by rewrite Hno. }
  split; [|split].
  - intros err latency Hk Hno. rewrite (Hskip k) by (lia || done).
    rewrite retryLoop_step, Hk. unfold pollIsFatalError. by rewrite Hno.
  - intros address latency Hk. rewrite (Hskip k) by (lia || done).
    by rewrite retryLoop_step, Hk.
  - intros err latency Hk Hno Hroom.
    replace (S delay' - 1) with delay' by lia.
    apply (Hskip (S k)); [lia|]. intros j Hj.
    destruct (decide (j = k)) as [->|]; [eauto 6|]. apply Hfail. lia.
Qed.

Lemma pollForAddress_retries_only_no_address_witness :
  pollForAddress sampleBase flakyFetch 0
  = (Err (ErrOther "connection lost"), 7).
Proof.
  destruct (pollForAddress_retries_only_no_address sampleBase flakyFetch 0 2)
    as (_ & Hfatal & _).
  - simpl. lia.
  - simpl. lia.
  - intros j Hj. exists (ErrNoAddress "public"), 0.
    destruct j as [|[|j]]; [| |lia]; vm_compute;
      (split; [reflexivity|]); (split; [reflexivity|lia]).
  - apply (Hfatal (ErrOther "connection lost") 1); reflexivity.
Defined.

(** C9. [maybeGetUnitAddress] never returns an address with an empty
    value. When the relation is cross-model and the poll of the public
    address succeeds with an empty value, the private address is polled
    from the instant the first poll ended: a non-empty private address is
    returned, and an empty one or a failed poll gives the empty result
    with no error. *)
Theorem maybeGetUnitAddress_no_empty_value
    (n : NetworkInfoBase) (rel : Relation) (now : Time) :
  (∀ addrs finish,
     maybeGetUnitAddress n rel now = (Ok addrs, finish) →
     ∀ address, address ∈ addrs → Value address ≠ "")
  ∧ (∀ address now1,
       relRemoteApplication rel = Ok true →
       pollForAddress n (PublicAddress (unit_ n)) now = (Ok address, now1) →
       Value address = "" →
       maybeGetUnitAddress n rel now =
         match pollForAddress n (PrivateAddress (unit_ n)) now1 with
         | (Ok address', now2) =>
             if decide (Value address' = "") then (Ok [], now2)
             else (Ok [address'], now2)
         | (Err _, now2) => (Ok [], now2)
         end).
Proof.
  split.
  - unfold maybeGetUnitAddress. intros addrs finish Hrun address Hin.
    destruct (relRemoteApplication rel) as [[|]|err]; cbn in Hrun;
      [|by simplify_eq; set_solver|done].
    assert (Hprivate : ∀ now1,
      (let '(polled, now2) :=
         pollForAddress n (PrivateAddress (unit_ n)) now1 in
       match polled with
       | Err _ => (Ok [], now2)
       | Ok address0 =>
           if decide (Value address0 ≠ "") then (Ok [address0], now2)
           else (Ok [], now2)
       end) = (Ok addrs, finish) → Value address ≠ "").
    { intros now1 Hp.
      destruct (pollForAddress n (PrivateAddress _) now1) as [[a|e] now2];
        [case_decide|]; simplify_eq; set_solver. }
    destruct (pollForAddress n (PublicAddress _) now) as [[a|e] now1];
      [case_decide|]; eauto.
    simplify_eq. set_solver.
  - intros address now1 Hcross Hpublic Hempty. unfold maybeGetUnitAddress.
    rewrite Hcross, Hpublic. cbn. rewrite decide_False by (by intros []).
    destruct (pollForAddress n (PrivateAddress _) now1) as [[a|e] now2];
      [|done].
    by repeat case_decide.
Qed.

Lemma maybeGetUnitAddress_no_empty_value_witness :
  maybeGetUnitAddress emptyPublicBase sampleRelation 0 = (Ok [], 31).
Proof.
  destruct (maybeGetUnitAddress_no_empty_value emptyPublicBase sampleRelation 0)
    as [_ Hfall].
  rewrite (Hfall (NewScopedSpaceAddress "" ScopePublic) 1);
    [|reflexivity|vm_compute; reflexivity|reflexivity].
  vm_compute. reflexivity.
Defined.

(** ** The relation resolver *)

Section ResolverFacts.
Context `{Externals}.


Lemma SortAddresses_elem_of addrs a : a ∈ SortAddresses addrs ↔ a ∈ addrs.
Proof. by rewrite SortAddresses_Permutation. Qed.

Lemma FormatAsCIDR_singleton a :
  FormatAsCIDR [a] =
    match toCIDR a with Ok cidr => Ok [cidr] | Err err => Err err end.
Proof. cbn. by destruct (toCIDR a). Qed.

(** The ingress candidates of [NetworksForRelation] before the sort. *)
Lemma NetworksForRelation_Ok_inv n binding rel pollAddr now
    space ingress egress finish :
  NetworksForRelation n binding rel pollAddr now
    = (Ok (space, ingress, egress), finish) →
  ∃ egress0 polled candidates,
    getRelationEgressSubnets n rel = Ok egress0
    ∧ (if pollAddr then maybeGetUnitAddress n rel now else (Ok [], now))
      = (Ok polled, finish)
    ∧ candidates =
        (if decide (length polled = 0) then
           match AllAddresses (unit_ n) with
           | Err _ => polled
           | Ok addrs =>
               polled ++ filter (λ addr, Scope addr ≠ ScopeMachineLocal) addrs
           end
         else polled)
    ∧ space = AlphaSpaceId
    ∧ ingress = SortAddresses candidates
    ∧ match egress0, ingress with
      | [], first :: _ => ∃ cidr, toCIDR (Value first) = Ok cidr ∧ egress = [cidr]
      | _, _ => egress = egress0
      end.
Proof.
  unfold NetworksForRelation. intros Hrun.
  destruct (getRelationEgressSubnets n rel) as [egress0|err]; [|done].
  destruct (if pollAddr then _ else _) as [[polled|err] now1]; [|done].
  eexists egress0, polled, _. split; [done|].
  set (candidates := if decide (length polled = 0) then _ else _) in *.
  destruct egress0 as [|e0 egress0], (SortAddresses candidates)
    as [|first rest] eqn:Hsort; try (by simplify_eq).
  rewrite FormatAsCIDR_singleton in Hrun.
  destruct (toCIDR (Value first)) as [cidr|err] eqn:Hcidr; simplify_eq.
  repeat split; eauto.
Qed.
(** C4. The egress subnets of a relation are its override when the
    look-up of the override succeeds and the default egress of the base
    when the look-up fails with not-found; the default is the model's
    egress configuration read by [init]. With the override
    ["10.0.0.0/24"] and the default ["0.0.0.0/0"], the egress is exactly
    ["10.0.0.0/24"], also in what [NetworksForRelation] returns. *)
Theorem getRelationEgressSubnets_override_or_default
    (n : NetworkInfoBase) (rel : Relation) :
  (∀ networks,
     stRelationEgressNetworks (st n) (relTagId rel) = Ok networks →
     getRelationEgressSubnets n rel = Ok (CIDRS networks))
  ∧ (∀ err,
       stRelationEgressNetworks (st n) (relTagId rel) = Err err →
       IsNotFound err = true →
       getRelationEgressSubnets n rel = Ok (defaultEgress n))
  ∧ (∀ st0 retryFactory0 unit0,
       init st0 retryFactory0 unit0 = Ok n →
       stModelEgressSubnets st0 = Ok (defaultEgress n))
  ∧ (stRelationEgressNetworks (st n) (relTagId rel)
       = Ok {| CIDRS := ["10.0.0.0/24"] |} →
     defaultEgress n = ["0.0.0.0/0"] →
     getRelationEgressSubnets n rel = Ok ["10.0.0.0/24"]
     ∧ ∀ binding pollAddr now space ingress egress finish,
         NetworksForRelation n binding rel pollAddr now
           = (Ok (space, ingress, egress), finish) →
         egress = ["10.0.0.0/24"]).
Proof.
  unfold getRelationEgressSubnets. split; [|split; [|split]].
  - by intros networks ->.
  - by intros err -> ->.
  - unfold init, getModelEgressSubnets. intros st0 retryFactory0 unit0 Hinit.
    destruct (unitApplication unit0) as [app0|]; [|done].
    destruct (EndpointBindings app0) as [bindings0|]; [|done].
    destruct (stModelEgressSubnets st0) as [cidrs|]; [|done].
    by simplify_eq.
  - intros Hoverride Hdefault. split; [by rewrite Hoverride|].
    intros binding pollAddr now space ingress egress finish Hrun.
    apply NetworksForRelation_Ok_inv in Hrun
      as (egress0 & polled & candidates & Hegress & _ & _ & _ & _ & Hrule).
    unfold getRelationEgressSubnets in Hegress. rewrite Hoverride in Hegress.
    by simplify_eq.
Qed.

(** When the egress of the relation is empty and the sorted ingress is
    not, the egress returned is the single-host CIDR of the first ingress
    address; an egress that is not empty is returned as it is. *)
Lemma NetworksForRelation_egress_rule n binding rel pollAddr now
    space ingress egress finish egress0 :
  NetworksForRelation n binding rel pollAddr now
    = (Ok (space, ingress, egress), finish) →
  getRelationEgressSubnets n rel = Ok egress0 →
  (egress0 ≠ [] → egress = egress0)
  ∧ (egress0 = [] → ∀ first rest, ingress = first :: rest →
       ∃ cidr, toCIDR (Value first) = Ok cidr ∧ egress = [cidr])
  ∧ (egress0 = [] → ingress = [] → egress = []).
Proof.
  intros Hrun Hegress.
  apply NetworksForRelation_Ok_inv in Hrun
    as (egress0' & polled & candidates & Hegress' & _ & _ & _ & _ & Hrule).
  rewrite Hegress in Hegress'. simplify_eq.
  destruct egress0' as [|e0 egress0], ingress as [|first rest];
    repeat split; try done; intros; by simplify_eq.
Qed.

(** C6. When [NetworksForRelation] does not poll, or the poll gave no
    address, and the unit's addresses are known, the ingress returned is
    the sort of the unit's addresses whose scope is not machine-local: it
    holds exactly those addresses and no machine-local one. *)
Theorem NetworksForRelation_ingress_without_poll
    (n : NetworkInfoBase) (binding : string) (rel : Relation)
    (pollAddr : bool) (now finish : Time) (space : string)
    (ingress : list SpaceAddress) (egress : list string)
    (addrs : list SpaceAddress) :
  NetworksForRelation n binding rel pollAddr now
    = (Ok (space, ingress, egress), finish) →
  pollAddr = false ∨ (∃ now1, maybeGetUnitAddress n rel now = (Ok [], now1)) →
  AllAddresses (unit_ n) = Ok addrs →
  ingress = SortAddresses (filter (λ a, Scope a ≠ ScopeMachineLocal) addrs)
  ∧ ingress ≡ₚ filter (λ a, Scope a ≠ ScopeMachineLocal) addrs
  ∧ (∀ a, a ∈ ingress ↔ a ∈ addrs ∧ Scope a ≠ ScopeMachineLocal)
  ∧ (∀ a, a ∈ ingress → Scope a ≠ ScopeMachineLocal).
Proof.
  intros Hrun Hpoll Haddrs.
  apply NetworksForRelation_Ok_inv in Hrun
    as (egress0 & polled & candidates & _ & Hpolled & -> & _ & -> & _).
  assert (polled = []) as ->.
  { destruct Hpoll as [->|[now1 Hnone]]; [by simplify_eq|].
    destruct pollAddr; [rewrite Hnone in Hpolled|]; by simplify_eq. }
  rewrite Haddrs, decide_True, app_nil_l by done.
  split; [done|]. split; [apply SortAddresses_Permutation|].
  split; intros a; rewrite SortAddresses_elem_of, list_elem_of_filter;
    tauto.
Qed.

End ResolverFacts.

Lemma getRelationEgressSubnets_override_or_default_witness :
  getRelationEgressSubnets sampleBase sampleRelation = Ok ["10.0.0.0/24"]
  ∧ defaultEgress sampleBase = ["0.0.0.0/0"].
Proof.
  split; [|reflexivity].
  destruct (getRelationEgressSubnets_override_or_default
              (H := sampleExternals) sampleBase sampleRelation)
    as (_ & _ & _ & Hscenario).
  apply Hscenario; reflexivity.
Defined.

Lemma NetworksForRelation_ingress_without_poll_witness :
  [ NewScopedSpaceAddress "54.1.2.3" ScopePublic;
    NewScopedSpaceAddress "10.1.2.3" ScopeCloudLocal ]
  = sortByScope (filter (λ a, Scope a ≠ ScopeMachineLocal) sampleAddrs)
  ∧ Forall (λ a, Scope a ≠ ScopeMachineLocal)
      [ NewScopedSpaceAddress "54.1.2.3" ScopePublic;
        NewScopedSpaceAddress "10.1.2.3" ScopeCloudLocal ].
Proof.
  destruct (NetworksForRelation_ingress_without_poll (H := sampleExternals)
              sampleBase "db" sampleRelation false 0 0 "0"
              [ NewScopedSpaceAddress "54.1.2.3" ScopePublic;
                NewScopedSpaceAddress "10.1.2.3" ScopeCloudLocal ]
              ["10.0.0.0/24"] sampleAddrs)
    as (Hsort & _ & _ & Hscope).
  - vm_compute. reflexivity.
  - left. reflexivity.
  - reflexivity.
  - split; [exact Hsort|]. apply Forall_forall. exact Hscope.
Defined.


(** The scenario of the specification: a cross-model relation with no
    egress configured, polled; the public address never comes and the
    private address comes during the second poll. *)
Example NetworksForRelation_private_address_example :
  NetworksForRelation (H := sampleExternals) openBase "db" sampleRelation
    true 0
  = (Ok (AlphaSpaceId, [NewScopedSpaceAddress "10.1.2.3" ScopeCloudLocal],
         ["10.1.2.3/32"]), 36).
Proof. vm_compute. reflexivity. Qed.


(** ** The request processor *)

Section ProcessorFacts.
Context `{Externals}.

(** *** The first loop *)

Lemma requestedEndpoints_snoc n endpoints endpoint :
  requestedEndpoints n (endpoints ++ [endpoint]) =
    validateEndpoint n (requestedEndpoints n endpoints) endpoint.
Proof. unfold requestedEndpoints. by rewrite foldl_snoc. Qed.

Lemma requestedEndpoints_boundSpaces n endpoints e :
  boundSpaces (requestedEndpoints n endpoints) !! e =
    if decide (e ∈ endpoints) then bindings n !! e else None.
Proof.
  induction endpoints as [|x endpoints IH] using rev_ind.
  - by rewrite decide_False by set_solver.
  - rewrite requestedEndpoints_snoc. unfold validateEndpoint.
    destruct (bindings n !! x) as [binding|] eqn:Hx; cbn.
    + destruct (decide (e = x)) as [->|Hne].
      * rewrite lookup_insert_eq, decide_True by set_solver. done.
      * rewrite lookup_insert_ne, IH by done.
        repeat case_decide; set_solver.
    + rewrite IH. repeat case_decide; try done; try set_solver.
      all: assert (e = x) as -> by set_solver; done.
Qed.

Lemma requestedEndpoints_egress n endpoints e :
  endpointEgressSubnets (requestedEndpoints n endpoints) !! e =
    if decide (e ∈ endpoints) then Some (defaultEgress n) else None.
Proof.
  induction endpoints as [|x endpoints IH] using rev_ind.
  - by rewrite decide_False by set_solver.
  - rewrite requestedEndpoints_snoc. unfold validateEndpoint.
    assert (Hgoal : <[x := defaultEgress n]>
      (endpointEgressSubnets (requestedEndpoints n endpoints)) !! e =
      if decide (e ∈ endpoints ++ [x]) then Some (defaultEgress n) else None).
    { destruct (decide (e = x)) as [->|Hne].
      - rewrite lookup_insert_eq, decide_True by set_solver. done.
      - rewrite lookup_insert_ne, IH by done.
        repeat case_decide; set_solver. }
    by destruct (bindings n !! x).
Qed.

Lemma requestedEndpoints_results n endpoints e :
  results (requestedEndpoints n endpoints) !! e =
    if decide (e ∈ endpoints) then
      match bindings n !! e with
      | Some _ => None
      | None => Some (bindingNotValid e)
      end
    else None.
Proof.
  induction endpoints as [|x endpoints IH] using rev_ind.
  - by rewrite decide_False by set_solver.
  - rewrite requestedEndpoints_snoc. unfold validateEndpoint.
    destruct (bindings n !! x) as [binding|] eqn:Hx; cbn.
    + rewrite IH. repeat case_decide; try done; try set_solver.
      all: assert (e = x) as -> by set_solver; by rewrite Hx.
    + destruct (decide (e = x)) as [->|Hne].
      * rewrite lookup_insert_eq, decide_True, Hx by set_solver. done.
      * rewrite lookup_insert_ne, IH by done.
        repeat case_decide; set_solver.
Qed.
(** *** The second loop *)

Implicit Types (body : string → string → result params.NetworkInfoResult).

Lemma assembleResults_other body order results0 all failure e :
  assembleResults body order results0 = (all, failure) →
  (∀ s, (e, s) ∉ order) →
  all !! e = results0 !! e.
Proof.
  revert results0. induction order as [|[e' s'] order IH];
    intros results0 Hrun Hnot; cbn in Hrun; [by simplify_eq|].
  destruct (body e' s') as [info|err]; [|by simplify_eq].
  rewrite (IH _ Hrun) by (intros s Hin; apply (Hnot s); by right).
  apply lookup_insert_ne. intros ->. apply (Hnot s'). by left.
Qed.

Lemma assembleResults_done body order results0 all :
  assembleResults body order results0 = (all, None) →
  ∀ e s, (e, s) ∈ order → (∀ s', (e, s') ∈ order → s' = s) →
  ∃ info, body e s = Ok info ∧ all !! e = Some info.
Proof.
  revert results0. induction order as [|[e' s'] order IH];
    intros results0 Hrun e s Hin Hfun; [by apply elem_of_nil in Hin|].
  cbn in Hrun. destruct (body e' s') as [info|err] eqn:Hbody; [|done].
  destruct (decide ((e, s) ∈ order)) as [Hrest|Hrest].
  - apply (IH _ Hrun e s Hrest). intros s'' Hin''. apply Hfun. by right.
  - apply elem_of_cons in Hin as [Heq|]; [|done]. simplify_eq.
    exists info. split; [done|].
    rewrite (assembleResults_other _ _ _ _ _ e' Hrun).
    + apply lookup_insert_eq.
    + intros s Hs. assert (s = s') as -> by (apply Hfun; by right). done.
Qed.

Lemma assembleResults_total body order results0 :
  (∀ e s, (e, s) ∈ order → ∃ info, body e s = Ok info) →
  ∃ all, assembleResults body order results0 = (all, None).
Proof.
  revert results0. induction order as [|[e' s'] order IH];
    intros results0 Hbody; cbn; [eauto|].
  destruct (Hbody e' s') as [info ->]; [by left|].
  apply IH. intros e s Hin. apply Hbody. by right.
Qed.

Lemma elem_of_rangeOrder (m : gmap string string) e s :
  (e, s) ∈ rangeOrder m ↔ m !! e = Some s.
Proof. by rewrite rangeOrder_Permutation, elem_of_map_to_list. Qed.

(** When the second loop ends without failure, every bound endpoint has
    the result of its turn and every other entry is as before. *)
Lemma assembleResults_rangeOrder body (bound : gmap string string)
    results0 all :
  assembleResults body (rangeOrder bound) results0 = (all, None) →
  ∀ e,
    match bound !! e with
    | Some s => ∃ info, body e s = Ok info ∧ all !! e = Some info
    | None => all !! e = results0 !! e
    end.
Proof.
  intros Hrun e. destruct (bound !! e) as [s|] eqn:He.
  - apply (assembleResults_done _ _ _ _ Hrun).
    + by apply elem_of_rangeOrder.
    + intros s' Hs'. apply elem_of_rangeOrder in Hs'. congruence.
  - apply (assembleResults_other _ _ _ _ _ _ Hrun).
    intros s Hs. apply elem_of_rangeOrder in Hs. congruence.
Qed.

(** The turn of an endpoint reads the egress and ingress maps at that
    endpoint only. *)
Lemma endpointResult_ext networkInfos egress1 egress2 ingress1 ingress2
    defaultIngress e s :
  egress1 !! e = egress2 !! e → ingress1 !! e = ingress2 !! e →
  endpointResult networkInfos egress1 ingress1 defaultIngress e s =
  endpointResult networkInfos egress2 ingress2 defaultIngress e s.
Proof. unfold endpointResult. by intros -> ->. Qed.

(** A turn of the second loop never gives a result that carries an
    error, since the device records built from the unit's addresses carry
    none. *)
Lemma endpointResult_no_Error addrs egressMap ingressMap defaultIngress
    e s info :
  endpointResult (networkInfosOf addrs) egressMap ingressMap defaultIngress e s
    = Ok info →
  params.Error_ info = None.
Proof.
  unfold endpointResult, networkInfosOf. intros Hrun.
  assert (Hnone : Error (default {| NetworkInfos := []; Error := None |}
    (({[AlphaSpaceId :=
         {| NetworkInfos :=
              [ {| network.MACAddress := "";
                   network.InterfaceName := "";
                   network.Addresses := interfaceAddrOf addrs |} ];
            Error := None |}]} : gmap string machineNetworkInfoResult)
       !! s)) = None).
  { destruct (decide (s = AlphaSpaceId)) as [->|Hne].
    - by rewrite lookup_singleton_eq.
    - by rewrite lookup_singleton_ne. }
  revert Hrun. unfold machineNetworkInfoResultToNetworkInfoResult.
  rewrite Hnone. cbn.
  repeat (case_match; try done); intros; by simplify_eq.
Qed.
(** *** From the unit's addresses to the response *)

Lemma dedupNetworkInfoResult_bindingNotValid e :
  dedupNetworkInfoResult (bindingNotValid e) = bindingNotValid e.
Proof. done. Qed.

Lemma assembleFromAddresses_inv n maps ingressMap res :
  assembleFromAddresses n maps ingressMap = (res, None) →
  ∃ addrs all,
    AllAddresses (unit_ n) = Ok addrs
    ∧ assembleResults
        (endpointResult (networkInfosOf (SortAddresses addrs))
           (endpointEgressSubnets maps) ingressMap
           (defaultIngressAddressesOf (SortAddresses addrs)))
        (rangeOrder (boundSpaces maps)) (results maps) = (all, None)
    ∧ res = dedupNetworkInfoResults {| params.Results := all |}.
Proof.
  unfold assembleFromAddresses. intros Hrun.
  destruct (AllAddresses (unit_ n)) as [addrs|]; [|done].
  destruct (assembleResults _ _ _) as [all [err|]] eqn:Hloop; [done|].
  exists addrs, all. by simplify_eq.
Qed.

Lemma assembleFromAddresses_lookup n maps ingressMap res :
  assembleFromAddresses n maps ingressMap = (res, None) →
  ∃ addrs,
    AllAddresses (unit_ n) = Ok addrs
    ∧ ∀ e,
        match boundSpaces maps !! e with
        | Some s =>
            ∃ info,
              endpointResult (networkInfosOf (SortAddresses addrs))
                (endpointEgressSubnets maps) ingressMap
                (defaultIngressAddressesOf (SortAddresses addrs)) e s
              = Ok info
              ∧ params.Results res !! e = Some (dedupNetworkInfoResult info)
        | None =>
            params.Results res !! e
            = dedupNetworkInfoResult <$> results maps !! e
        end.
Proof.
  intros Hrun.
  apply assembleFromAddresses_inv in Hrun as (addrs & all & Haddrs & Hloop & ->).
  exists addrs. split; [done|]. intros e.
  pose proof (assembleResults_rangeOrder _ _ _ _ Hloop e) as He.
  cbn. rewrite lookup_fmap.
  destruct (boundSpaces maps !! e) as [s|].
  - destruct He as (info & Hbody & ->). eauto.
  - by rewrite He.
Qed.

(** Two runs of the second part agree on the endpoints bound in the
    second, when the second binds them as the first does and gives them
    the same egress and ingress. *)
Lemma assembleFromAddresses_agree n maps1 ingress1 maps2 ingress2 res1 :
  assembleFromAddresses n maps1 ingress1 = (res1, None) →
  (∀ e, is_Some (boundSpaces maps2 !! e) →
     boundSpaces maps1 !! e = boundSpaces maps2 !! e
     ∧ endpointEgressSubnets maps1 !! e = endpointEgressSubnets maps2 !! e
     ∧ ingress1 !! e = ingress2 !! e) →
  ∃ res2,
    assembleFromAddresses n maps2 ingress2 = (res2, None)
    ∧ ∀ e,
        match boundSpaces maps2 !! e with
        | Some _ => params.Results res2 !! e = params.Results res1 !! e
        | None =>
            params.Results res2 !! e
            = dedupNetworkInfoResult <$> results maps2 !! e
        end.
Proof.
  intros Hrun1 Hsame.
  destruct (assembleFromAddresses_lookup _ _ _ _ Hrun1) as (addrs & Haddrs & H1).
  assert (Hbody : ∀ e s, boundSpaces maps2 !! e = Some s →
    ∃ info,
      endpointResult (networkInfosOf (SortAddresses addrs))
        (endpointEgressSubnets maps2) ingress2
        (defaultIngressAddressesOf (SortAddresses addrs)) e s = Ok info
      ∧ params.Results res1 !! e = Some (dedupNetworkInfoResult info)).
  { intros e s He. destruct (Hsame e) as (Hb & He1 & Hi1); [by eexists|].
    specialize (H1 e). rewrite Hb, He in H1.
    destruct H1 as (info & Hinfo & Hres). exists info. split; [|done].
    rewrite <- Hinfo. symmetry. by apply endpointResult_ext. }
  destruct (assembleResults_total
    (endpointResult (networkInfosOf (SortAddresses addrs))
       (endpointEgressSubnets maps2) ingress2
       (defaultIngressAddressesOf (SortAddresses addrs)))
    (rangeOrder (boundSpaces maps2)) (results maps2)) as [all2 Hloop2].
  { intros e s Hin. apply elem_of_rangeOrder in Hin.
    destruct (Hbody e s Hin) as (info & ? & _). eauto. }
  exists (dedupNetworkInfoResults {| params.Results := all2 |}). split.
  - unfold assembleFromAddresses. by rewrite Haddrs, Hloop2.
  - intros e. pose proof (assembleResults_rangeOrder _ _ _ _ Hloop2 e) as He.
    cbn. rewrite lookup_fmap.
    destruct (boundSpaces maps2 !! e) as [s|] eqn:Hb.
    + destruct He as (info & Hinfo & ->).
      destruct (Hbody e s Hb) as (info' & Hinfo' & Hres1).
      rewrite Hres1. rewrite Hinfo in Hinfo'. by simplify_eq.
    + by rewrite He.
Qed.

Lemma setRelationEgress_boundSpaces maps endpoint egress :
  boundSpaces (setRelationEgress maps endpoint egress) = boundSpaces maps.
Proof. unfold setRelationEgress. by case_decide. Qed.

Lemma setRelationEgress_results maps endpoint egress :
  results (setRelationEgress maps endpoint egress) = results maps.
Proof. unfold setRelationEgress. by case_decide. Qed.

Lemma setRelationEgress_egress_ne maps endpoint egress e :
  e ≠ endpoint →
  endpointEgressSubnets (setRelationEgress maps endpoint egress) !! e
  = endpointEgressSubnets maps !! e.
Proof.
  intros Hne. unfold setRelationEgress. case_decide; [|done].
  by apply lookup_insert_ne.
Qed.

Lemma setRelationEgress_egress_eq maps endpoint egress :
  endpointEgressSubnets (setRelationEgress maps endpoint egress) !! endpoint
  = if decide (egress = []) then endpointEgressSubnets maps !! endpoint
    else Some egress.
Proof.
  unfold setRelationEgress. destruct egress as [|c egress]; cbn.
  - by rewrite decide_False by lia.
  - rewrite decide_True by lia. apply lookup_insert_eq.
Qed.

(** The maps with which the second part of [ProcessAPIRequest] runs: those
    of the first loop, changed by the relation when there is one. *)
Lemma ProcessAPIRequest_inv n args now res finish :
  ProcessAPIRequest n args now = ((res, None), finish) →
  ∃ maps ingressMap,
    assembleFromAddresses n maps ingressMap = (res, None)
    ∧ match params.RelationId args with
      | None =>
          finish = now ∧ ingressMap = ∅
          ∧ maps = requestedEndpoints n (params.Endpoints args)
      | Some relationId =>
          ∃ endpoint space ingress egress,
            getRelationNetworkInfo n relationId now
              = (Ok (endpoint, space, ingress, egress), finish)
            ∧ ingressMap = {[ endpoint := ingress ]}
            ∧ maps = setRelationEgress
                       (requestedEndpoints n (params.Endpoints args))
                       endpoint egress
      end.
Proof.
  unfold ProcessAPIRequest. intros Hrun.
  destruct (params.RelationId args) as [relationId|].
  - destruct (getRelationNetworkInfo n relationId now)
      as [[[[[endpoint space] ingress] egress]|err] now1] eqn:Hrel;
      [|by simplify_eq].
    injection Hrun as Hrun ->. eauto 10.
  - injection Hrun as Hrun ->. eauto 10.
Qed.
(** The entries of a response that is not a failure. *)
Lemma ProcessAPIRequest_entries n args now res finish :
  ProcessAPIRequest n args now = ((res, None), finish) →
  ∀ e,
    (e ∉ params.Endpoints args → params.Results res !! e = None)
    ∧ (e ∈ params.Endpoints args → bindings n !! e = None →
       params.Results res !! e = Some (bindingNotValid e))
    ∧ (e ∈ params.Endpoints args → is_Some (bindings n !! e) →
       ∃ info, params.Results res !! e = Some info
               ∧ params.Error_ info = None).
Proof.
  intros Hrun e.
  apply ProcessAPIRequest_inv in Hrun as (maps & ingressMap & Hrun & Hmaps).
  assert (boundSpaces maps
          = boundSpaces (requestedEndpoints n (params.Endpoints args))
          ∧ results maps
            = results (requestedEndpoints n (params.Endpoints args)))
    as [Hbound Hresults].
  { destruct (params.RelationId args).
    - destruct Hmaps as (? & ? & ? & ? & _ & _ & ->).
      by rewrite setRelationEgress_boundSpaces, setRelationEgress_results.
    - by destruct Hmaps as (_ & _ & ->). }
  apply assembleFromAddresses_lookup in Hrun as (addrs & _ & Hlookup).
  specialize (Hlookup e).
  rewrite Hbound, Hresults, requestedEndpoints_boundSpaces,
    requestedEndpoints_results in Hlookup.
  split; [|split].
  - intros Hnot. rewrite !decide_False in Hlookup by done. by rewrite Hlookup.
  - intros Hin Hnone. rewrite !decide_True, Hnone in Hlookup by done.
    by rewrite Hlookup.
  - intros Hin [s Hs]. rewrite !decide_True, Hs in Hlookup by done.
    destruct Hlookup as (info & Hinfo & ->).
    exists (dedupNetworkInfoResult info). split; [done|].
    apply endpointResult_no_Error in Hinfo.
    unfold dedupNetworkInfoResult. by rewrite Hinfo.
Qed.

(** C8. A response that is not a failure has an entry for exactly the
    requested endpoint names. The entry of a requested endpoint that the
    application does not bind is the not-valid error that names it, and
    the entry of a bound one carries no error. Leaving the unbound
    endpoints out of the request gives the same response without their
    entries: they take no part in the results of the others. *)
Theorem ProcessAPIRequest_one_entry_per_endpoint
    (n : NetworkInfoBase) (args : params.NetworkInfoParams)
    (now finish : Time) (res : params.NetworkInfoResults) :
  ProcessAPIRequest n args now = ((res, None), finish) →
  (∀ e, is_Some (params.Results res !! e) ↔ e ∈ params.Endpoints args)
  ∧ (∀ e, e ∈ params.Endpoints args → bindings n !! e = None →
       params.Results res !! e = Some (bindingNotValid e)
       ∧ params.Code <$> params.Error_ (bindingNotValid e) = Some "not valid")
  ∧ (∀ e, e ∈ params.Endpoints args → is_Some (bindings n !! e) →
       ∃ info, params.Results res !! e = Some info
               ∧ params.Error_ info = None)
  ∧ (∃ res',
       ProcessAPIRequest n
         {| params.RelationId := params.RelationId args;
            params.Endpoints :=
              filter (λ e, is_Some (bindings n !! e))
                (params.Endpoints args) |} now
       = ((res', None), finish)
       ∧ ∀ e, params.Results res' !! e =
              if decide (is_Some (bindings n !! e))
              then params.Results res !! e else None).
Proof.
  intros Hrun. pose proof (ProcessAPIRequest_entries _ _ _ _ _ Hrun) as Hentries.
  split; [|split; [|split]].
  - intros e. destruct (Hentries e) as (Hout & Hbad & Hgood). split.
    + intros Hsome. destruct (decide (e ∈ params.Endpoints args)); [done|].
      rewrite Hout in Hsome by done. by destruct Hsome.
    + intros Hin. destruct (bindings n !! e) eqn:Hb.
      * destruct Hgood as (info & -> & _); eauto.
      * rewrite Hbad by done. eauto.
  - intros e Hin Hnone. split; [by apply Hentries|done].
  - intros e. apply Hentries.
  - set (eps' := filter (λ e, is_Some (bindings n !! e))
                   (params.Endpoints args)).
    apply ProcessAPIRequest_inv in Hrun as (maps & ingressMap & Hrun & Hmaps).
    set (relEgress := λ maps0 : requestMaps,
      match params.RelationId args with
      | None => maps0
      | Some relationId =>
          match getRelationNetworkInfo n relationId now with
          | (Ok (endpoint, _, _, egress), _) =>
              setRelationEgress maps0 endpoint egress
          | _ => maps0
          end
      end).
    assert (Hmaps1 : maps = relEgress
                       (requestedEndpoints n (params.Endpoints args))).
    { subst relEgress. cbn. destruct (params.RelationId args).
      - by destruct Hmaps as (? & ? & ? & ? & -> & _ & ->).
      - by destruct Hmaps as (_ & _ & ->). }
    assert (Hrel : ∀ maps0,
      boundSpaces (relEgress maps0) = boundSpaces maps0
      ∧ results (relEgress maps0) = results maps0
      ∧ ∀ maps0' e,
          endpointEgressSubnets maps0 !! e = endpointEgressSubnets maps0' !! e →
          endpointEgressSubnets (relEgress maps0) !! e
          = endpointEgressSubnets (relEgress maps0') !! e).
    { intros maps0. subst relEgress. cbn.
      destruct (params.RelationId args); [|done].
      destruct (getRelationNetworkInfo _ _ _)
        as [[[[[endpoint ?] ?] egress]|?] ?]; [|done].
      rewrite setRelationEgress_boundSpaces, setRelationEgress_results.
      split; [done|]. split; [done|]. intros maps0' e He.
      destruct (decide (e = endpoint)) as [->|Hne].
      - rewrite !setRelationEgress_egress_eq. by case_decide.
      - by rewrite !setRelationEgress_egress_ne. }
    set (maps' := relEgress (requestedEndpoints n eps')).
    assert (Hbound' : ∀ e, boundSpaces maps' !! e = boundSpaces maps !! e).
    { intros e. subst maps' maps.
      rewrite (proj1 (Hrel _)), (proj1 (Hrel _)).
      rewrite !requestedEndpoints_boundSpaces. subst eps'.
      repeat case_decide; try done.
      - exfalso.
        match goal with
        | Hf : _ ∈ filter _ _ |- _ => by apply list_elem_of_filter in Hf as [_ ?]
        end.
      - destruct (bindings n !! e) eqn:Hb; [|done]. exfalso.
        match goal with
        | Hf : _ ∉ filter _ _ |- _ => apply Hf, list_elem_of_filter; eauto
        end. }
    destruct (assembleFromAddresses_agree n maps ingressMap maps' ingressMap res)
      as (res' & Hrun' & Hlookup'); [done| |].
    { intros e Hsome. split; [by rewrite Hbound'|]. split; [|done].
      subst maps' maps. apply (proj2 (proj2 (Hrel _))).
      rewrite (proj1 (Hrel _)), requestedEndpoints_boundSpaces in Hsome.
      rewrite !requestedEndpoints_egress.
      case_decide as Hin; [|by destruct Hsome].
      rewrite decide_True; [done|].
      subst eps'. by apply list_elem_of_filter in Hin as [_ ?]. }
    exists res'. split.
    + unfold ProcessAPIRequest. cbn [params.RelationId params.Endpoints].
      fold eps'. subst maps' relEgress. cbn in Hrun'.
      destruct (params.RelationId args).
      * destruct Hmaps as (endpoint & ? & ? & egress & Hrel' & -> & _).
        rewrite Hrel' in Hrun' |- *. by rewrite Hrun'.
      * destruct Hmaps as (-> & -> & _). by rewrite Hrun'.
    + intros e. specialize (Hlookup' e). rewrite Hbound' in Hlookup'.
      destruct (Hentries e) as (Hout & Hbad & _).
      subst maps. rewrite (proj1 (Hrel _)),
        requestedEndpoints_boundSpaces in Hlookup'.
      subst maps'. rewrite (proj1 (proj2 (Hrel _))),
        requestedEndpoints_results in Hlookup'.
      destruct (decide (e ∈ params.Endpoints args)) as [Hin|Hnin].
      * destruct (bindings n !! e) as [s|] eqn:Hb.
        -- rewrite Hlookup'. case_decide as Hs; [done|]. by destruct Hs.
        -- rewrite Hlookup'. rewrite (decide_False (P := is_Some None));
             [|by intros []].
           rewrite decide_False; [done|]. subst eps'.
           intros [[? ?] _]%list_elem_of_filter. congruence.
      * rewrite Hlookup', Hout by done.
        rewrite decide_False.
        -- cbn. by destruct (decide (is_Some (bindings n !! e))).
        -- subst eps'. by intros [_ ?]%list_elem_of_filter.
Qed.
End ProcessorFacts.

Lemma ProcessAPIRequest_one_entry_per_endpoint_witness :
  params.Results
    (ProcessAPIRequest (H := sampleExternals) sampleBase sampleRequest 0).1.1
    !! "admin"
  = Some (bindingNotValid (H := sampleExternals) "admin")
  ∧ is_Some (params.Results
               (ProcessAPIRequest (H := sampleExternals) sampleBase
                  sampleRequest 0).1.1 !! "db")
  ∧ params.Results
      (ProcessAPIRequest (H := sampleExternals) sampleBase
         sampleRequest 0).1.1 !! "website"
    = None.
Proof.
  destruct (ProcessAPIRequest_one_entry_per_endpoint (H := sampleExternals)
              sampleBase sampleRequest 0 0
              (ProcessAPIRequest (H := sampleExternals) sampleBase
                 sampleRequest 0).1.1)
    as (Hkeys & Hunbound & _ & _).
  - vm_compute. reflexivity.
  - split; [|split].
    + apply Hunbound; [cbn; set_solver|reflexivity].
    + apply Hkeys. cbn. set_solver.
    + apply eq_None_not_Some. rewrite Hkeys. cbn. set_solver.
Defined.

(** ** Relations in the request processor *)

Section RelationFacts.
Context `{Externals}.

Lemma endpointResult_egress_rule networkInfos egressMap ingressMap
    defaultIngress e s info :
  endpointResult networkInfos egressMap ingressMap defaultIngress e s
    = Ok info →
  let egress0 := default [] (egressMap !! e) in
  (egress0 ≠ [] → params.EgressSubnets info = egress0)
  ∧ (egress0 = [] → ∀ first rest,
       params.IngressAddresses info = first :: rest →
       ∃ cidr, toCIDR first = Ok cidr ∧ params.EgressSubnets info = [cidr])
  ∧ (egress0 = [] → params.IngressAddresses info = [] →
     params.EgressSubnets info = []).
Proof.
  unfold endpointResult. cbv zeta.
  generalize (default [] (egressMap !! e)). intros egress0.
  match goal with
  | |- context [match egress0 with [] => match ?l with _ => _ end | _ => _ end] =>
      generalize l
  end.
  intros ingressAddrs Hrun.
  destruct egress0 as [|c egress0], ingressAddrs as [|first rest];
    try (simplify_eq; cbn; repeat split; intros; by simplify_eq).
  rewrite FormatAsCIDR_singleton in Hrun.
  destruct (toCIDR first) as [cidr|err] eqn:Hcidr; simplify_eq. cbn.
  repeat split; intros; simplify_eq; eauto.
Qed.

Lemma endpointResult_ingress_given networkInfos egressMap ingressMap
    defaultIngress e s info :
  endpointResult networkInfos egressMap ingressMap defaultIngress e s
    = Ok info →
  default [] (ingressMap !! e) ≠ [] →
  params.IngressAddresses info = Value <$> default [] (ingressMap !! e).
Proof.
  unfold endpointResult. intros Hrun Hgiven. revert Hrun.
  destruct (default [] (ingressMap !! e)) as [|a given]; [done|].
  cbn [fmap list_fmap length]. rewrite !decide_False by done.
  generalize (default [] (egressMap !! e)). intros egress0 Hrun.
  destruct egress0 as [|c egress0]; [|by simplify_eq].
  rewrite FormatAsCIDR_singleton in Hrun.
  destruct (toCIDR (Value a)); by simplify_eq.
Qed.

Lemma dedupNetworkInfoResult_fields info :
  params.Error_ info = None →
  params.IngressAddresses (dedupNetworkInfoResult info)
    = dedupStringListPreservingOrder (params.IngressAddresses info)
  ∧ params.EgressSubnets (dedupNetworkInfoResult info)
    = dedupStringListPreservingOrder (params.EgressSubnets info).
Proof. unfold dedupNetworkInfoResult. by intros ->. Qed.

Lemma dedupStringListPreservingOrder_head first rest :
  head (dedupStringListPreservingOrder (first :: rest)) = Some first.
Proof.
  unfold dedupStringListPreservingOrder. rewrite dedupLoop_cons.
  by rewrite decide_False by set_solver.
Qed.
Lemma NetworkInfoResults_eq (res1 res2 : params.NetworkInfoResults) :
  (∀ e, params.Results res1 !! e = params.Results res2 !! e) → res1 = res2.
Proof. destruct res1, res2. cbn. intros Heq. f_equal. by apply map_eq. Qed.

(** C10. In a response that is not a failure, made in the context of a
    relation whose endpoint is [relEndpoint]: the entry of [relEndpoint],
    when it is requested and bound, carries the ingress and the egress
    resolved for the relation when they are not empty; when [relEndpoint]
    is not requested or not bound, the response is the one of the same
    request made outside any relation; and the entry of every other
    requested endpoint is the one it gets when requested alone outside
    any relation. *)
Theorem ProcessAPIRequest_relation_own_endpoint_only
    (n : NetworkInfoBase) (args : params.NetworkInfoParams)
    (now finish : Time) (res : params.NetworkInfoResults)
    (relationId : Z) (relEndpoint space : string)
    (ingress : list SpaceAddress) (egress : list string) :
  ProcessAPIRequest n args now = ((res, None), finish) →
  params.RelationId args = Some relationId →
  getRelationNetworkInfo n relationId now
    = (Ok (relEndpoint, space, ingress, egress), finish) →
  (∀ s, relEndpoint ∈ params.Endpoints args →
        bindings n !! relEndpoint = Some s →
        ∃ info,
          params.Results res !! relEndpoint = Some info
          ∧ (ingress ≠ [] →
             params.IngressAddresses info
             = dedupStringListPreservingOrder (Value <$> ingress))
          ∧ (egress ≠ [] →
             params.EgressSubnets info
             = dedupStringListPreservingOrder egress))
  ∧ (relEndpoint ∉ params.Endpoints args ∨ bindings n !! relEndpoint = None →
     ProcessAPIRequest n
       {| params.RelationId := None;
          params.Endpoints := params.Endpoints args |} now
     = ((res, None), now))
  ∧ (∀ e, e ≠ relEndpoint → e ∈ params.Endpoints args →
        ∃ res0,
          ProcessAPIRequest n
            {| params.RelationId := None; params.Endpoints := [e] |} now
          = ((res0, None), now)
          ∧ params.Results res !! e = params.Results res0 !! e).
Proof.
  intros Hrun Hid Hrel.
  pose proof (ProcessAPIRequest_entries _ _ _ _ _ Hrun) as Hentries.
  apply ProcessAPIRequest_inv in Hrun as (maps & ingressMap & Hrun & Hmaps).
  rewrite Hid in Hmaps.
  destruct Hmaps as (ep & sp & ing & eg & Hrel' & -> & ->).
  rewrite Hrel in Hrel'. injection Hrel' as <- <- <- <-.
  set (maps0 := requestedEndpoints n (params.Endpoints args)) in *.
  split; [|split].
  - intros s Hin Hbound.
    apply assembleFromAddresses_lookup in Hrun as (addrs & _ & Hlookup).
    specialize (Hlookup relEndpoint).
    rewrite setRelationEgress_boundSpaces in Hlookup. subst maps0.
    rewrite requestedEndpoints_boundSpaces, decide_True, Hbound
      in Hlookup by done.
    destruct Hlookup as (info & Hinfo & Hres).
    exists (dedupNetworkInfoResult info). split; [done|].
    destruct (dedupNetworkInfoResult_fields info) as [-> ->];
      [by eapply endpointResult_no_Error|].
    split.
    + intros Hingress. f_equal.
      apply endpointResult_ingress_given in Hinfo;
        rewrite lookup_singleton_eq in *; done.
    + intros Hegress. f_equal.
      apply endpointResult_egress_rule in Hinfo as [Hkeep _].
      rewrite setRelationEgress_egress_eq, decide_False in Hkeep by done.
      by apply Hkeep.
  - intros Habsent.
    assert (Hunbound : boundSpaces maps0 !! relEndpoint = None).
    { subst maps0. rewrite requestedEndpoints_boundSpaces.
      case_decide; [|done]. by destruct Habsent. }
    destruct (assembleFromAddresses_agree n _ _ maps0 ∅ _ Hrun)
      as (res2 & Hrun2 & Hlookup2).
    { intros e Hsome. rewrite setRelationEgress_boundSpaces.
      assert (e ≠ relEndpoint) as Hne.
      { intros ->. rewrite Hunbound in Hsome. by destruct Hsome. }
      split; [done|]. split.
      - by apply setRelationEgress_egress_ne.
      - by rewrite lookup_singleton_ne, lookup_empty. }
    unfold ProcessAPIRequest. cbn [params.RelationId params.Endpoints].
    fold maps0. rewrite Hrun2. do 2 f_equal.
    apply NetworkInfoResults_eq. intros e. specialize (Hlookup2 e).
    apply assembleFromAddresses_lookup in Hrun as (addrs & _ & Hlookup).
    specialize (Hlookup e).
    rewrite setRelationEgress_boundSpaces, setRelationEgress_results
      in Hlookup.
    destruct (boundSpaces maps0 !! e); [done|]. by rewrite Hlookup2, Hlookup.
  - intros e Hne Hin.
    set (maps1 := requestedEndpoints n [e]).
    destruct (assembleFromAddresses_agree n _ _ maps1 ∅ _ Hrun)
      as (res0 & Hrun0 & Hlookup0).
    { intros e' Hsome. rewrite setRelationEgress_boundSpaces.
      subst maps0 maps1.
      rewrite requestedEndpoints_boundSpaces in Hsome.
      case_decide as He'; [|by destruct Hsome].
      assert (e' = e) as -> by set_solver.
      rewrite setRelationEgress_egress_ne by done.
      rewrite !requestedEndpoints_boundSpaces, !requestedEndpoints_egress.
      rewrite !decide_True by set_solver.
      by rewrite lookup_singleton_ne, lookup_empty. }
    exists res0. split.
    + unfold ProcessAPIRequest. cbn [params.RelationId params.Endpoints].
      fold maps1. by rewrite Hrun0.
    + specialize (Hlookup0 e). subst maps1.
      rewrite requestedEndpoints_boundSpaces, requestedEndpoints_results
        in Hlookup0.
      rewrite !decide_True in Hlookup0 by set_solver.
      destruct (bindings n !! e) eqn:Hb; [done|].
      rewrite Hlookup0. by apply Hentries.
Qed.
End RelationFacts.

Lemma ProcessAPIRequest_relation_own_endpoint_only_witness :
  ∃ info,
    params.Results
      (ProcessAPIRequest (H := sampleExternals) sampleBase
         sampleRelationRequest 0).1.1 !! "db" = Some info
    ∧ params.IngressAddresses info = ["10.1.2.3"]
    ∧ params.EgressSubnets info = ["10.0.0.0/24"].
Proof.
  destruct (ProcessAPIRequest_relation_own_endpoint_only
              (H := sampleExternals) sampleBase sampleRelationRequest 0 36
              (ProcessAPIRequest (H := sampleExternals) sampleBase
                 sampleRelationRequest 0).1.1
              7 "db" "0"
              [NewScopedSpaceAddress "10.1.2.3" ScopeCloudLocal]
              ["10.0.0.0/24"])
    as (Hown & _ & _).
  - vm_compute. reflexivity.
  - reflexivity.
  - vm_compute. reflexivity.
  - destruct (Hown "0") as (info & Hinfo & Hingress & Hegress).
    + vm_compute. by left.
    + reflexivity.
    + exists info. split; [done|]. split.
      * by rewrite Hingress.
      * by rewrite Hegress.
Defined.

(** ** Egress derived from the first ingress address *)

Section EgressFacts.
Context `{Externals}.

Lemma ProcessAPIRequest_endpoint_egress n args now finish res e s :
  ProcessAPIRequest n args now = ((res, None), finish) →
  e ∈ params.Endpoints args →
  bindings n !! e = Some s →
  ∃ egress0 info,
    params.Results res !! e = Some (dedupNetworkInfoResult info)
    ∧ params.Error_ info = None
    ∧ (egress0 = defaultEgress n
       ∨ ∃ relationId space ingress,
           params.RelationId args = Some relationId
           ∧ getRelationNetworkInfo n relationId now
             = (Ok (e, space, ingress, egress0), finish)
           ∧ egress0 ≠ [])
    ∧ (egress0 ≠ [] → params.EgressSubnets info = egress0)
    ∧ (egress0 = [] → ∀ first rest,
         params.IngressAddresses info = first :: rest →
         ∃ cidr, toCIDR first = Ok cidr ∧ params.EgressSubnets info = [cidr])
    ∧ (egress0 = [] → params.IngressAddresses info = [] →
       params.EgressSubnets info = []).
Proof.
  intros Hrun Hin Hbound.
  apply ProcessAPIRequest_inv in Hrun as (maps & ingressMap & Hrun & Hmaps).
  apply assembleFromAddresses_lookup in Hrun as (addrs & _ & Hlookup).
  specialize (Hlookup e).
  assert (boundSpaces maps !! e = Some s
          ∧ (default [] (endpointEgressSubnets maps !! e) = defaultEgress n
             ∨ ∃ relationId space ingress,
                 params.RelationId args = Some relationId
                 ∧ getRelationNetworkInfo n relationId now
                   = (Ok (e, space, ingress,
                          default [] (endpointEgressSubnets maps !! e)),
                      finish)
                 ∧ default [] (endpointEgressSubnets maps !! e) ≠ []))
    as [Hb Hegress].
  { destruct (params.RelationId args) as [relationId|].
    - destruct Hmaps as (ep & sp & ing & eg & Hrel & _ & ->).
      rewrite setRelationEgress_boundSpaces, requestedEndpoints_boundSpaces,
        decide_True by done.
      split; [done|].
      destruct (decide (e = ep)) as [->|Hne].
      + rewrite setRelationEgress_egress_eq. case_decide as Heg.
        * left. by rewrite requestedEndpoints_egress, decide_True.
        * right. cbn. eauto 10.
      + left. rewrite setRelationEgress_egress_ne by done.
        by rewrite requestedEndpoints_egress, decide_True.
    - destruct Hmaps as (_ & _ & ->).
      rewrite requestedEndpoints_boundSpaces, decide_True by done.
      split; [done|]. left.
      by rewrite requestedEndpoints_egress, decide_True. }
  rewrite Hb in Hlookup. destruct Hlookup as (info & Hinfo & Hres).
  exists (default [] (endpointEgressSubnets maps !! e)), info.
  split; [done|]. split; [by eapply endpointResult_no_Error|].
  split; [done|]. by apply endpointResult_egress_rule in Hinfo.
Qed.

(** A turn of the second loop, with the fall-backs of the ingress written
    as one choice: the addresses given for the endpoint, else the default
    ones, else those of the devices of the space. *)
Lemma endpointResult_turn networkInfos egressMap ingressMap defaultIngress
    e s :
  endpointResult networkInfos egressMap ingressMap defaultIngress e s =
    let spaceInfo :=
      default {| NetworkInfos := []; Error := None |} (networkInfos !! s) in
    let info := machineNetworkInfoResultToNetworkInfoResult spaceInfo in
    let ingressAddrs :=
      match Value <$> default [] (ingressMap !! e), defaultIngress with
      | first :: rest, _ => first :: rest
      | [], first :: rest => first :: rest
      | [], [] =>
          Value <$> SortAddresses
            (spaceAddressesFromNetworkInfo (NetworkInfos spaceInfo))
      end in
    let finish (egress' : list string) : params.NetworkInfoResult :=
      {| params.Info := params.Info info;
         params.EgressSubnets := egress';
         params.IngressAddresses := ingressAddrs;
         params.Error_ := params.Error_ info |} in
    match default [] (egressMap !! e), ingressAddrs with
    | [], first :: _ =>
        match toCIDR first with
        | Ok cidr => Ok (finish [cidr])
        | Err err => Err err
        end
    | egress, _ => Ok (finish egress)
    end.
Proof.
  unfold endpointResult. cbv zeta.
  generalize (default [] (egressMap !! e)). intros egress0.
  set (fallback := Value <$> SortAddresses (spaceAddressesFromNetworkInfo
    (NetworkInfos (default {| NetworkInfos := []; Error := None |}
                     (networkInfos !! s))))).
  assert (Hchain : ∀ given,
    (if decide (length
          (if decide (length given = 0) then defaultIngress else given) = 0)
     then fallback
     else if decide (length given = 0) then defaultIngress else given)
    = match given, defaultIngress with
      | first :: rest, _ => first :: rest
      | [], first :: rest => first :: rest
      | [], [] => fallback
      end).
  { intros [|i1 given]; destruct defaultIngress as [|d1 others]; done. }
  rewrite Hchain.
  generalize (match Value <$> default [] (ingressMap !! e), defaultIngress with
              | first :: rest, _ => first :: rest
              | [], first :: rest => first :: rest
              | [], [] => fallback
              end).
  intros ingressAddrs.
  destruct egress0 as [|c egress0], ingressAddrs as [|first rest]; try done.
  rewrite FormatAsCIDR_singleton. by destruct (toCIDR first).
Qed.

(** The second loop fails at its first turn when every turn fails. *)
Lemma assembleResults_first_fails
    (body : string → string → result params.NetworkInfoResult)
    order results0 err :
  order ≠ [] →
  (∀ e s, (e, s) ∈ order → body e s = Err err) →
  assembleResults body order results0 = (results0, Some err).
Proof.
  destruct order as [|[e s] order]; [done|]. intros _ Hbody. cbn.
  rewrite (Hbody e s) by (by left). done.
Qed.

(** Outside a relation every turn of the second loop reads the default
    egress and no ingress of the endpoint's own. *)
Lemma requestedEndpoints_turn n endpoints networkInfos defaultIngress e s :
  e ∈ endpoints →
  endpointResult networkInfos
    (endpointEgressSubnets (requestedEndpoints n endpoints)) ∅
    defaultIngress e s
  = endpointResult networkInfos {[ e := defaultEgress n ]} ∅
      defaultIngress e s.
Proof.
  intros Hin. apply endpointResult_ext; [|done].
  by rewrite requestedEndpoints_egress, decide_True, lookup_singleton_eq.
Qed.

(** Outside a relation, with no default egress and a unit that has an
    address which is not machine-local: every turn formats the first of
    these addresses, and the request fails when it cannot be formatted. *)
Lemma ProcessAPIRequest_plain_derives n endpoints now addrs first rest e s :
  AllAddresses (unit_ n) = Ok addrs →
  defaultEgress n = [] →
  filter (λ a, Scope a ≠ ScopeMachineLocal) (SortAddresses addrs)
    = first :: rest →
  e ∈ endpoints →
  bindings n !! e = Some s →
  match toCIDR (Value first) with
  | Ok cidr =>
      ∃ res final,
        ProcessAPIRequest n
          {| params.RelationId := None; params.Endpoints := endpoints |} now
          = ((res, None), now)
        ∧ params.Results res !! e = Some final
        ∧ params.IngressAddresses final
          = dedupStringListPreservingOrder (Value <$> first :: rest)
        ∧ params.EgressSubnets final = [cidr]
  | Err err =>
      ∃ partial,
        ProcessAPIRequest n
          {| params.RelationId := None; params.Endpoints := endpoints |} now
          = ((partial, Some err), now)
  end.
Proof.
  intros Haddrs Hopen Hfilter Hin Hbound.
  unfold ProcessAPIRequest, assembleFromAddresses.
  cbn [params.RelationId params.Endpoints]. rewrite Haddrs. cbv zeta.
  set (maps := requestedEndpoints n endpoints).
  set (body := endpointResult _ _ _ _).
  assert (Hturn : ∀ e' s', (e', s') ∈ rangeOrder (boundSpaces maps) →
    body e' s' =
      match toCIDR (Value first) with
      | Ok cidr =>
          Ok {| params.Info := params.Info
                  (machineNetworkInfoResultToNetworkInfoResult
                     (default {| NetworkInfos := []; Error := None |}
                        (networkInfosOf (SortAddresses addrs) !! s')));
                params.EgressSubnets := [cidr];
                params.IngressAddresses := Value <$> first :: rest;
                params.Error_ := params.Error_
                  (machineNetworkInfoResultToNetworkInfoResult
                     (default {| NetworkInfos := []; Error := None |}
                        (networkInfosOf (SortAddresses addrs) !! s'))) |}
      | Err err => Err err
      end).
  { intros e' s' Hin'. apply elem_of_rangeOrder in Hin'. subst maps body.
    rewrite requestedEndpoints_boundSpaces in Hin'.
    case_decide as Hreq; [|done].
    rewrite requestedEndpoints_turn, endpointResult_turn by done.
    rewrite lookup_singleton_eq, lookup_empty, Hopen.
    unfold defaultIngressAddressesOf. rewrite Hfilter. done. }
  assert (Hmine : (e, s) ∈ rangeOrder (boundSpaces maps)).
  { apply elem_of_rangeOrder. subst maps.
    by rewrite requestedEndpoints_boundSpaces, decide_True. }
  destruct (toCIDR (Value first)) as [cidr|err] eqn:Hcidr.
  - destruct (assembleResults_total body (rangeOrder (boundSpaces maps))
                (results maps)) as [all Hloop].
    { intros e' s' Hin'. rewrite (Hturn e' s' Hin'). eauto. }
    rewrite Hloop.
    pose proof (assembleResults_rangeOrder _ _ _ _ Hloop e) as He.
    apply elem_of_rangeOrder in Hmine as Hb. rewrite Hb in He.
    destruct He as (info & Hinfo & Hall).
    exists (dedupNetworkInfoResults {| params.Results := all |}),
      (dedupNetworkInfoResult info).
    split; [done|]. split; [cbn; by rewrite lookup_fmap, Hall|].
    pose proof (endpointResult_no_Error _ _ _ _ _ _ _ Hinfo) as Herr.
    destruct (dedupNetworkInfoResult_fields info Herr) as [-> ->].
    rewrite (Hturn e s Hmine) in Hinfo. by simplify_eq.
  - rewrite (assembleResults_first_fails body _ _ err).
    + eauto.
    + intros Hnil. rewrite Hnil in Hmine. by apply elem_of_nil in Hmine.
    + intros e' s' Hin'. by rewrite (Hturn e' s' Hin').
Qed.

(** Outside a relation, with a default egress, no turn formats an
    address: the request succeeds whatever the formatter does, and every
    entry has the default egress. *)
Lemma ProcessAPIRequest_plain_keeps n endpoints now addrs e s :
  AllAddresses (unit_ n) = Ok addrs →
  defaultEgress n ≠ [] →
  e ∈ endpoints →
  bindings n !! e = Some s →
  ∃ res final,
    ProcessAPIRequest n
      {| params.RelationId := None; params.Endpoints := endpoints |} now
      = ((res, None), now)
    ∧ params.Results res !! e = Some final
    ∧ params.EgressSubnets final
      = dedupStringListPreservingOrder (defaultEgress n).
Proof.
  intros Haddrs Hset Hin Hbound.
  unfold ProcessAPIRequest, assembleFromAddresses.
  cbn [params.RelationId params.Endpoints]. rewrite Haddrs. cbv zeta.
  set (maps := requestedEndpoints n endpoints).
  set (body := endpointResult _ _ _ _).
  assert (Hturn : ∀ e' s', (e', s') ∈ rangeOrder (boundSpaces maps) →
    ∃ info, body e' s' = Ok info
            ∧ params.EgressSubnets info = defaultEgress n).
  { intros e' s' Hin'. apply elem_of_rangeOrder in Hin'. subst maps body.
    rewrite requestedEndpoints_boundSpaces in Hin'.
    case_decide as Hreq; [|done].
    rewrite requestedEndpoints_turn, endpointResult_turn by done.
    rewrite lookup_singleton_eq. cbn [default from_option id]. cbv zeta.
    destruct (defaultEgress n) as [|c egress]; [done|]. eauto. }
  destruct (assembleResults_total body (rangeOrder (boundSpaces maps))
              (results maps)) as [all Hloop].
  { intros e' s' Hin'. destruct (Hturn e' s' Hin') as (info & -> & _). eauto. }
  rewrite Hloop.
  pose proof (assembleResults_rangeOrder _ _ _ _ Hloop e) as He.
  assert (Hb : boundSpaces maps !! e = Some s).
  { subst maps. by rewrite requestedEndpoints_boundSpaces, decide_True. }
  rewrite Hb in He. destruct He as (info & Hinfo & Hall).
  exists (dedupNetworkInfoResults {| params.Results := all |}),
    (dedupNetworkInfoResult info).
  split; [done|]. split; [cbn; by rewrite lookup_fmap, Hall|].
  pose proof (endpointResult_no_Error _ _ _ _ _ _ _ Hinfo) as Herr.
  destruct (dedupNetworkInfoResult_fields info Herr) as [_ ->].
  destruct (Hturn e s) as (info' & Hinfo' & <-);
    [by apply elem_of_rangeOrder|].
  rewrite Hinfo in Hinfo'. by simplify_eq.
Qed.

(** With no poll, [NetworksForRelation] formats the first of the sorted
    addresses of the unit when the relation has no egress, and returns the
    egress of the relation as it is when it has one. *)
Lemma NetworksForRelation_unpolled n binding rel now egress0 :
  getRelationEgressSubnets n rel = Ok egress0 →
  NetworksForRelation n binding rel false now =
    let ingress :=
      SortAddresses
        match AllAddresses (unit_ n) with
        | Ok addrs => filter (λ a, Scope a ≠ ScopeMachineLocal) addrs
        | Err _ => []
        end in
    match egress0, ingress with
    | [], first :: _ =>
        match toCIDR (Value first) with
        | Ok cidr => (Ok (AlphaSpaceId, ingress, [cidr]), now)
        | Err err => (Err err, now)
        end
    | _, _ => (Ok (AlphaSpaceId, ingress, egress0), now)
    end.
Proof.
  intros Hegress. unfold NetworksForRelation. rewrite Hegress.
  cbn [length]. rewrite decide_True by done. cbv zeta.
  assert (Hcand : match AllAddresses (unit_ n) with
                  | Ok addrs =>
                      [] ++ filter (λ a, Scope a ≠ ScopeMachineLocal) addrs
                  | Err _ => []
                  end
                  = match AllAddresses (unit_ n) with
                    | Ok addrs => filter (λ a, Scope a ≠ ScopeMachineLocal) addrs
                    | Err _ => []
                    end) by (by destruct (AllAddresses (unit_ n))).
  rewrite Hcand.
  destruct egress0 as [|c egress0]; [|done].
  destruct (SortAddresses _) as [|first rest]; [done|].
  rewrite FormatAsCIDR_singleton. by destruct (toCIDR (Value first)).
Qed.

(** C5. In [NetworksForRelation] and in the turn of [ProcessAPIRequest]
    for a bound endpoint alike: when the egress is empty and the ingress,
    after all its fall-backs, is not, the egress becomes the single-host
    CIDR of the first ingress address; an egress that is not empty is
    kept. The first three parts read the rule off what is returned: by
    [NetworksForRelation], by a turn of the second loop, and in the
    response, where it is seen after the deduplication, which keeps the
    first ingress address first and a single CIDR as it is. The other
    parts give what is returned from what goes in. Without a poll
    [NetworksForRelation] returns the sorted addresses of the unit that
    are not machine-local and, for a relation with no egress, the CIDR of
    the first of them, or fails when it cannot be formatted; the egress
    of a relation that has one is returned as it is. A turn of the second
    loop with no egress formats the first address of its ingress, or
    fails. Outside a relation, with no default egress and a unit that has
    an address which is not machine-local, the response gives every bound
    endpoint the CIDR of the first such address in the sorted order, and
    the request fails when it cannot be formatted; with a default egress
    the request succeeds whatever the formatter does and the egress is the
    default one. *)
Theorem egress_defaults_to_first_ingress :
  (∀ n binding rel pollAddr now finish space ingress egress egress0,
     NetworksForRelation n binding rel pollAddr now
       = (Ok (space, ingress, egress), finish) →
     getRelationEgressSubnets n rel = Ok egress0 →
     (egress0 ≠ [] → egress = egress0)
     ∧ (egress0 = [] → ∀ first rest, ingress = first :: rest →
          ∃ cidr, toCIDR (Value first) = Ok cidr ∧ egress = [cidr])
     ∧ (egress0 = [] → ingress = [] → egress = []))
  ∧ (∀ networkInfos egressMap ingressMap defaultIngress e s info,
       endpointResult networkInfos egressMap ingressMap defaultIngress e s
         = Ok info →
       let egress0 := default [] (egressMap !! e) in
       (egress0 ≠ [] → params.EgressSubnets info = egress0)
       ∧ (egress0 = [] → ∀ first rest,
            params.IngressAddresses info = first :: rest →
            ∃ cidr, toCIDR first = Ok cidr
                    ∧ params.EgressSubnets info = [cidr])
       ∧ (egress0 = [] → params.IngressAddresses info = [] →
          params.EgressSubnets info = []))
  ∧ (∀ n args now finish res e s,
       ProcessAPIRequest n args now = ((res, None), finish) →
       e ∈ params.Endpoints args →
       bindings n !! e = Some s →
       ∃ egress0 final,
         params.Results res !! e = Some final
         ∧ (egress0 = defaultEgress n
            ∨ ∃ relationId space ingress,
                params.RelationId args = Some relationId
                ∧ getRelationNetworkInfo n relationId now
                  = (Ok (e, space, ingress, egress0), finish)
                ∧ egress0 ≠ [])
         ∧ (egress0 ≠ [] →
            params.EgressSubnets final
            = dedupStringListPreservingOrder egress0)
         ∧ (egress0 = [] → ∀ first,
              head (params.IngressAddresses final) = Some first →
              ∃ cidr, toCIDR first = Ok cidr
                      ∧ params.EgressSubnets final = [cidr])
         ∧ (egress0 = [] → params.IngressAddresses final = [] →
            params.EgressSubnets final = []))
  ∧ (∀ n binding rel now addrs first rest,
       getRelationEgressSubnets n rel = Ok [] →
       AllAddresses (unit_ n) = Ok addrs →
       SortAddresses (filter (λ a, Scope a ≠ ScopeMachineLocal) addrs)
         = first :: rest →
       NetworksForRelation n binding rel false now =
         match toCIDR (Value first) with
         | Ok cidr => (Ok (AlphaSpaceId, first :: rest, [cidr]), now)
         | Err err => (Err err, now)
         end)
  ∧ (∀ n binding rel now egress0,
       getRelationEgressSubnets n rel = Ok egress0 →
       egress0 ≠ [] →
       ∃ ingress,
         NetworksForRelation n binding rel false now
         = (Ok (AlphaSpaceId, ingress, egress0), now))
  ∧ (∀ networkInfos egressMap ingressMap defaultIngress e s first rest,
       default [] (egressMap !! e) = [] →
       match Value <$> default [] (ingressMap !! e), defaultIngress with
       | given :: others, _ => given :: others
       | [], given :: others => given :: others
       | [], [] =>
           Value <$> SortAddresses
             (spaceAddressesFromNetworkInfo
                (NetworkInfos
                   (default {| NetworkInfos := []; Error := None |}
                      (networkInfos !! s))))
       end = first :: rest →
       match toCIDR first with
       | Ok cidr =>
           ∃ info,
             endpointResult networkInfos egressMap ingressMap
               defaultIngress e s = Ok info
             ∧ params.IngressAddresses info = first :: rest
             ∧ params.EgressSubnets info = [cidr]
       | Err err =>
           endpointResult networkInfos egressMap ingressMap
             defaultIngress e s = Err err
       end)
  ∧ (∀ n endpoints now addrs first rest e s,
       AllAddresses (unit_ n) = Ok addrs →
       defaultEgress n = [] →
       filter (λ a, Scope a ≠ ScopeMachineLocal) (SortAddresses addrs)
         = first :: rest →
       e ∈ endpoints →
       bindings n !! e = Some s →
       match toCIDR (Value first) with
       | Ok cidr =>
           ∃ res final,
             ProcessAPIRequest n
               {| params.RelationId := None;
                  params.Endpoints := endpoints |} now
               = ((res, None), now)
             ∧ params.Results res !! e = Some final
             ∧ params.IngressAddresses final
               = dedupStringListPreservingOrder (Value <$> first :: rest)
             ∧ head (params.IngressAddresses final) = Some (Value first)
             ∧ params.EgressSubnets final = [cidr]
       | Err err =>
           ∃ partial,
             ProcessAPIRequest n
               {| params.RelationId := None;
                  params.Endpoints := endpoints |} now
               = ((partial, Some err), now)
       end)
  ∧ (∀ n endpoints now addrs e s,
       AllAddresses (unit_ n) = Ok addrs →
       defaultEgress n ≠ [] →
       e ∈ endpoints →
       bindings n !! e = Some s →
       ∃ res final,
         ProcessAPIRequest n
           {| params.RelationId := None; params.Endpoints := endpoints |} now
           = ((res, None), now)
         ∧ params.Results res !! e = Some final
         ∧ params.EgressSubnets final
           = dedupStringListPreservingOrder (defaultEgress n)).
Proof.
  split; [|split; [|split; [|split; [|split; [|split; [|split]]]]]].
  - intros n binding rel pollAddr now finish space ingress egress egress0.
    apply NetworksForRelation_egress_rule.
  - intros networkInfos egressMap ingressMap defaultIngress e s info.
    apply endpointResult_egress_rule.
  - intros n args now finish res e s Hrun Hin Hbound.
    destruct (ProcessAPIRequest_endpoint_egress _ _ _ _ _ _ _ Hrun Hin Hbound)
      as (egress0 & info & Hres & Herr & Hsource & Hkeep & Hfirst & Hnone).
    exists egress0, (dedupNetworkInfoResult info).
    destruct (dedupNetworkInfoResult_fields info Herr) as [-> ->].
    split; [done|]. split; [done|]. split; [|split].
    + intros Hne. by rewrite Hkeep.
    + intros Hempty first Hhead.
      destruct (params.IngressAddresses info) as [|first' rest] eqn:Hingress;
        [done|].
      rewrite dedupStringListPreservingOrder_head in Hhead. simplify_eq.
      destruct (Hfirst eq_refl first rest eq_refl) as (cidr & Hcidr & ->).
      exists cidr. split; [done|].
      unfold dedupStringListPreservingOrder. rewrite dedupLoop_cons.
      by rewrite decide_False by set_solver.
    + intros Hempty Hnil.
      destruct (params.IngressAddresses info) as [|first' rest] eqn:Hingress.
      * by rewrite Hnone.
      * pose proof (dedupStringListPreservingOrder_head first' rest) as Hh.
        by rewrite Hnil in Hh.
  - intros n binding rel now addrs first rest Hegress Haddrs Hsort.
    rewrite (NetworksForRelation_unpolled _ _ _ _ _ Hegress), Haddrs.
    cbv zeta. by rewrite Hsort.
  - intros n binding rel now egress0 Hegress Hset.
    rewrite (NetworksForRelation_unpolled _ _ _ _ _ Hegress). cbv zeta.
    destruct egress0 as [|c egress0]; [done|]. eauto.
  - intros networkInfos egressMap ingressMap defaultIngress e s first rest
      Hempty Hchain.
    rewrite endpointResult_turn. cbv zeta. rewrite Hempty, Hchain.
    destruct (toCIDR first) as [cidr|err]; [|done]. eauto.
  - intros n endpoints now addrs first rest e s Haddrs Hopen Hfilter Hin
      Hbound.
    pose proof (ProcessAPIRequest_plain_derives _ _ now _ _ _ _ _
                  Haddrs Hopen Hfilter Hin Hbound) as Hrun.
    destruct (toCIDR (Value first)) as [cidr|err]; [|done].
    destruct Hrun as (res & final & Hrun & Hres & Hingress & Hegress).
    exists res, final. repeat split; try done.
    rewrite Hingress. apply dedupStringListPreservingOrder_head.
  - intros n endpoints now addrs e s.
    apply ProcessAPIRequest_plain_keeps.
Qed.
End EgressFacts.

Lemma egress_defaults_to_first_ingress_witness :
  NetworksForRelation (H := sampleExternals) openBase "db" sampleRelation
    false 0
  = (Ok (AlphaSpaceId,
         [ NewScopedSpaceAddress "54.1.2.3" ScopePublic;
           NewScopedSpaceAddress "10.1.2.3" ScopeCloudLocal ],
         ["54.1.2.3/32"]), 0)
  ∧ ∃ res final,
      ProcessAPIRequest (H := sampleExternals) openBase samplePlainRequest 0
        = ((res, None), 0)
      ∧ params.Results res !! "db" = Some final
      ∧ params.IngressAddresses final
        = dedupStringListPreservingOrder ["54.1.2.3"; "10.1.2.3"]
      ∧ head (params.IngressAddresses final) = Some "54.1.2.3"
      ∧ params.EgressSubnets final = ["54.1.2.3/32"].
Proof.
  destruct (egress_defaults_to_first_ingress (H := sampleExternals))
    as (_ & _ & _ & Hresolver & _ & _ & Hrequest & _).
  split.
  - apply (Hresolver openBase "db" sampleRelation 0 sampleAddrs
             (NewScopedSpaceAddress "54.1.2.3" ScopePublic)
             [NewScopedSpaceAddress "10.1.2.3" ScopeCloudLocal]).
    + reflexivity.
    + reflexivity.
    + vm_compute. reflexivity.
  - apply (Hrequest openBase ["db"; "website"] 0 sampleAddrs
             (NewScopedSpaceAddress "54.1.2.3" ScopePublic)
             [NewScopedSpaceAddress "10.1.2.3" ScopeCloudLocal] "db" "0").
    + reflexivity.
    + reflexivity.
    + vm_compute. reflexivity.
    + rewrite !elem_of_cons. tauto.
    + reflexivity.
Defined.

(** * Further properties of the engine *)

(** ** What a poll returns, and when *)

Section RetryOutcome.
Context {A : Type} (Func : fetcher A) (IsFatalError : error → bool).

(** Whatever the fetch does, the loop returns the outcome of one of its
    attempts: the attempts before it failed with errors that are not fatal
    and left room for the sleep, it starts within the budget, and when
    its own error is not fatal the sleep would have passed the budget. *)
Lemma retryLoop_outcome (delay' : Time) maxDuration start now :
  start ≤ now → now ≤ start + maxDuration →
  ∃ k outcome latency,
    let last := attemptInstant Func (S delay') now k in
    Func last = (outcome, latency)
    ∧ retryLoop Func IsFatalError delay' maxDuration start now
      = (outcome, last + latency)
    ∧ last ≤ start + maxDuration
    ∧ (∀ j, j < k → ∃ err lat,
          Func (attemptInstant Func (S delay') now j) = (Err err, lat)
          ∧ IsFatalError err = false
          ∧ attemptInstant Func (S delay') now j + lat - start + S delay'
            ≤ maxDuration)
    ∧ match outcome with
      | Ok _ => True
      | Err err =>
          IsFatalError err = true
          ∨ maxDuration < last + latency - start + S delay'
      end.
Proof.
  remember (start + maxDuration - now) as room eqn:Hroom.
  revert now Hroom.
  induction room as [room IH] using lt_wf_ind. intros now -> Hstart Hnow.
  rewrite retryLoop_step.
  destruct (Func now) as [[a|err] latency] eqn:Hf.
  { exists 0, (Ok a), latency. cbn. rewrite Hf.
    repeat split; try done. intros j Hj. lia. }
  destruct (IsFatalError err) eqn:Hfatal.
  { exists 0, (Err err), latency. cbn. rewrite Hf.
    repeat split; try done; [intros j Hj; lia|by left]. }
  case_decide as Hover.
  { exists 0, (Err err), latency. cbn. rewrite Hf.
    repeat split; try done; [intros j Hj; lia|by right]. }
  destruct (IH (start + maxDuration - (now + latency + S delay')))
    with (now := now + latency + S delay')
    as (k & outcome & latency' & Hlast & Hloop & Hbound & Hbefore & Hend);
    [lia|done|lia|lia|].
  exists (S k), outcome, latency'. cbn zeta in *.
  rewrite attemptInstant_shift, Hf. cbn [snd].
  repeat split; try done.
  intros [|j] Hj.
  - exists err, latency. cbn. rewrite Hf. repeat split; try done. lia.
  - rewrite attemptInstant_shift, Hf. cbn [snd]. apply Hbefore. lia.
Qed.
End RetryOutcome.

(** The two ways a poll can go: the policy is refused and nothing is
    fetched, or the poll returns the outcome of its last attempt. *)
Lemma pollForAddress_cases (n : NetworkInfoBase)
    (fetch : fetcher SpaceAddress) (start : Time) :
  let args := retryFactory n () in
  (∃ msg, pollForAddress n fetch start = (Err (ErrNotValid msg), start)
          ∧ (Delay args = 0 ∨ MaxDuration args = 0))
  ∨ (0 < Delay args ∧ 0 < MaxDuration args
     ∧ ∃ k outcome latency,
         let last := attemptInstant fetch (Delay args) start k in
         fetch last = (outcome, latency)
         ∧ pollForAddress n fetch start = (outcome, last + latency)
         ∧ last ≤ start + MaxDuration args
         ∧ k * Delay args ≤ MaxDuration args
         ∧ (∀ j, j < k → ∃ err lat,
               fetch (attemptInstant fetch (Delay args) start j)
                 = (Err err, lat)
               ∧ IsNoAddressError err = true)
         ∧ match outcome with
           | Ok _ => True
           | Err err =>
               IsNoAddressError err = false
               ∨ MaxDuration args
                 < last + latency - start + Delay args
           end).
Proof.
  intros args. unfold pollForAddress, Call. fold args.
  destruct (Delay args) as [|delay'] eqn:Hd; [left; eauto|].
  case_decide as Hm; [left; eauto|]. right.
  split; [lia|]. split; [lia|].
  destruct (retryLoop_outcome fetch pollIsFatalError delay'
              (MaxDuration args) start start)
    as (k & outcome & latency & Hlast & Hloop & Hbound & Hbefore & Hend);
    [lia|lia|].
  exists k, outcome, latency. cbn zeta in *.
  pose proof (attemptInstant_ge fetch (S delay') start k) as Hge.
  repeat split; try done; try lia.
  - intros j Hj. destruct (Hbefore j Hj) as (err & lat & Hf & Hno & _).
    exists err, lat. split; [done|].
    unfold pollIsFatalError in Hno. by destruct (IsNoAddressError err).
  - destruct outcome as [a|err]; [done|].
    destruct Hend as [Hfatal|Hover]; [left|by right].
    unfold pollIsFatalError in Hfatal. by destruct (IsNoAddressError err).
Qed.

(** X1. With a retry policy of positive delay and budget, a poll returns
    the outcome of one of its attempts, at the instant that attempt ends:
    every attempt before it failed with the no-address error, it starts
    within the budget after at most budget/delay sleeps, and when it fails
    with the no-address error there was no room left for a sleep. *)
Theorem pollForAddress_returns_last_attempt
    (n : NetworkInfoBase) (fetch : fetcher SpaceAddress) (start : Time) :
  let args := retryFactory n () in
  0 < Delay args → 0 < MaxDuration args →
  ∃ k outcome latency,
    let last := attemptInstant fetch (Delay args) start k in
    fetch last = (outcome, latency)
    ∧ pollForAddress n fetch start = (outcome, last + latency)
    ∧ last ≤ start + MaxDuration args
    ∧ k * Delay args ≤ MaxDuration args
    ∧ (∀ j, j < k → ∃ err lat,
          fetch (attemptInstant fetch (Delay args) start j) = (Err err, lat)
          ∧ IsNoAddressError err = true)
    ∧ match outcome with
      | Ok _ => True
      | Err err =>
          IsNoAddressError err = false
          ∨ MaxDuration args < last + latency - start + Delay args
      end.
Proof.
  intros args Hdelay Hbudget.
  destruct (pollForAddress_cases n fetch start) as [(msg & _ & Hbad)|Hgood].
  - fold args in Hbad. lia.
  - by destruct Hgood as (_ & _ & Hgood).
Qed.

Lemma pollForAddress_returns_last_attempt_witness :
  ∃ k outcome latency,
    let last := attemptInstant (PrivateAddress sampleUnit) 3 30 k in
    PrivateAddress sampleUnit last = (outcome, latency)
    ∧ pollForAddress sampleBase (PrivateAddress sampleUnit) 30
      = (outcome, last + latency)
    ∧ last ≤ 30 + 30
    ∧ k * 3 ≤ 30
    ∧ (∀ j, j < k → ∃ err lat,
          PrivateAddress sampleUnit
            (attemptInstant (PrivateAddress sampleUnit) 3 30 j)
            = (Err err, lat)
          ∧ IsNoAddressError err = true)
    ∧ match outcome with
      | Ok _ => True
      | Err err => IsNoAddressError err = false ∨ 30 < last + latency - 30 + 3
      end.
Proof.
  apply (pollForAddress_returns_last_attempt sampleBase
           (PrivateAddress sampleUnit) 30); simpl; lia.
Defined.

Lemma pollForAddress_finish_bounds (n : NetworkInfoBase)
    (fetch : fetcher SpaceAddress) (start bound : Time) :
  (∀ t, snd (fetch t) ≤ bound) →
  start ≤ snd (pollForAddress n fetch start)
  ∧ snd (pollForAddress n fetch start)
    ≤ start + MaxDuration (retryFactory n ()) + bound.
Proof.
  intros Hlatency.
  destruct (pollForAddress_cases n fetch start)
    as [(msg & -> & _)|(_ & _ & k & outcome & latency & Hgood)].
  - cbn. lia.
  - cbn zeta in Hgood. destruct Hgood as (Hf & -> & Hlast & _).
    cbn [snd].
    pose proof (attemptInstant_ge fetch (Delay (retryFactory n ())) start k).
    specialize (Hlatency
      (attemptInstant fetch (Delay (retryFactory n ())) start k)).
    rewrite Hf in Hlatency. cbn in Hlatency. lia.
Qed.

(** The instant at which [maybeGetUnitAddress] returns: at once, at the
    end of the poll of the public address, or at the end of the poll of
    the private address that follows it. *)
Lemma maybeGetUnitAddress_finish (n : NetworkInfoBase) (rel : Relation)
    (now : Time) :
  let now1 := snd (pollForAddress n (PublicAddress (unit_ n)) now) in
  let now2 := snd (pollForAddress n (PrivateAddress (unit_ n)) now1) in
  snd (maybeGetUnitAddress n rel now) = now
  ∨ snd (maybeGetUnitAddress n rel now) = now1
  ∨ snd (maybeGetUnitAddress n rel now) = now2.
Proof.
  intros now1 now2. subst now1 now2. unfold maybeGetUnitAddress.
  destruct (relRemoteApplication rel) as [[|]|err]; cbn; [|by left..].
  destruct (pollForAddress n (PublicAddress _) now) as [[a|e] now1]; cbn.
  - case_decide; [by right; left|]. right; right.
    destruct (pollForAddress n (PrivateAddress _) now1) as [[a'|e'] now2];
      cbn; [by case_decide|done].
  - right; right.
    destruct (pollForAddress n (PrivateAddress _) now1) as [[a'|e'] now2];
      cbn; [by case_decide|done].
Qed.

Lemma maybeGetUnitAddress_finish_bounds (n : NetworkInfoBase)
    (rel : Relation) (now bound : Time) :
  (∀ t, snd (PublicAddress (unit_ n) t) ≤ bound) →
  (∀ t, snd (PrivateAddress (unit_ n) t) ≤ bound) →
  now ≤ snd (maybeGetUnitAddress n rel now)
  ∧ snd (maybeGetUnitAddress n rel now)
    ≤ now + 2 * (MaxDuration (retryFactory n ()) + bound).
Proof.
  intros Hpublic Hprivate.
  pose proof (pollForAddress_finish_bounds n _ now bound Hpublic) as H1.
  pose proof (pollForAddress_finish_bounds n _
    (snd (pollForAddress n (PublicAddress (unit_ n)) now)) bound Hprivate)
    as H2.
  destruct (maybeGetUnitAddress_finish n rel now) as [->|[->| ->]]; lia.
Qed.

Section Duration.
Context `{Externals}.

Lemma NetworksForRelation_finish n binding rel pollAddr now :
  snd (NetworksForRelation n binding rel pollAddr now) = now
  ∨ (pollAddr = true
     ∧ snd (NetworksForRelation n binding rel pollAddr now)
       = snd (maybeGetUnitAddress n rel now)).
Proof.
  unfold NetworksForRelation.
  destruct (getRelationEgressSubnets n rel) as [egress|]; [|by left].
  destruct pollAddr; cbn.
  - right. split; [done|].
    destruct (maybeGetUnitAddress n rel now) as [[polled|err] now1]; [|done].
    cbn. repeat case_match; done.
  - left. repeat case_match; done.
Qed.

Lemma getRelationNetworkInfo_finish n relationId now :
  snd (getRelationNetworkInfo n relationId now) = now
  ∨ ∃ rel, stRelation (st n) relationId = Ok rel
           ∧ snd (getRelationNetworkInfo n relationId now)
             = snd (maybeGetUnitAddress n rel now).
Proof.
  unfold getRelationNetworkInfo, getRelationAndEndpointName.
  destruct (stRelation (st n) relationId) as [rel|]; [|by left].
  destruct (relEndpoint rel _) as [endpoint|]; [|by left].
  destruct (ApplicationConfig (app n)) as [cfg|]; [|by left].
  cbn zeta.
  match goal with
  | |- context [NetworksForRelation n endpoint rel ?p now] =>
      destruct (NetworksForRelation_finish n endpoint rel p now)
        as [Hnow|[_ Hpoll]];
      destruct (NetworksForRelation n endpoint rel p now)
        as [[[[space ingress] egress]|err] now1]; cbn in *; subst; eauto
  end.
Qed.

(** X2. When a fetch of the public or of the private address of the unit
    never takes more than [bound], the poll of both, the resolution of a
    relation and a whole request return no earlier than they were entered
    and no later than twice the budget plus [bound] after that. *)
Theorem request_returns_within_two_budgets
    (n : NetworkInfoBase) (bound : Time) :
  (∀ t, snd (PublicAddress (unit_ n) t) ≤ bound) →
  (∀ t, snd (PrivateAddress (unit_ n) t) ≤ bound) →
  let limit := 2 * (MaxDuration (retryFactory n ()) + bound) in
  (∀ rel now,
     now ≤ snd (maybeGetUnitAddress n rel now)
     ∧ snd (maybeGetUnitAddress n rel now) ≤ now + limit)
  ∧ (∀ binding rel pollAddr now,
       now ≤ snd (NetworksForRelation n binding rel pollAddr now)
       ∧ snd (NetworksForRelation n binding rel pollAddr now) ≤ now + limit)
  ∧ (∀ args now,
       now ≤ snd (ProcessAPIRequest n args now)
       ∧ snd (ProcessAPIRequest n args now) ≤ now + limit).
Proof.
  intros Hpublic Hprivate limit. subst limit.
  split; [|split].
  - intros rel now. by apply maybeGetUnitAddress_finish_bounds.
  - intros binding rel pollAddr now.
    pose proof (maybeGetUnitAddress_finish_bounds n rel now bound
                  Hpublic Hprivate).
    destruct (NetworksForRelation_finish n binding rel pollAddr now)
      as [->|[_ ->]]; lia.
  - intros args now. unfold ProcessAPIRequest.
    destruct (params.RelationId args) as [relationId|]; [|cbn; lia].
    destruct (getRelationNetworkInfo_finish n relationId now)
      as [Hnow|(rel & _ & Hpoll)].
    + destruct (getRelationNetworkInfo n relationId now)
        as [[[[[endpoint space] ingress] egress]|err] now1];
        cbn in *; lia.
    + pose proof (maybeGetUnitAddress_finish_bounds n rel now bound
                    Hpublic Hprivate).
      destruct (getRelationNetworkInfo n relationId now)
        as [[[[[endpoint space] ingress] egress]|err] now1];
        cbn in *; lia.
Qed.
End Duration.

Lemma request_returns_within_two_budgets_witness :
  0 ≤ snd (ProcessAPIRequest (H := sampleExternals) sampleBase
             sampleRelationRequest 0)
  ∧ snd (ProcessAPIRequest (H := sampleExternals) sampleBase
           sampleRelationRequest 0) ≤ 0 + 2 * (30 + 0).
Proof.
  destruct (request_returns_within_two_budgets (H := sampleExternals)
              sampleBase 0) as (_ & _ & Hrequest).
  - intros t. simpl. lia.
  - intros t. simpl. case_decide; simpl; lia.
  - apply (Hrequest sampleRelationRequest 0).
Defined.

(** ** Where the polled address comes from *)

Lemma pollForAddress_Ok_fetched (n : NetworkInfoBase)
    (fetch : fetcher SpaceAddress) (start finish : Time) (a : SpaceAddress) :
  pollForAddress n fetch start = (Ok a, finish) →
  ∃ t latency, fetch t = (Ok a, latency) ∧ start ≤ t ∧ finish = t + latency.
Proof.
  intros Hrun.
  destruct (pollForAddress_cases n fetch start)
    as [(msg & Hbad & _)|(_ & _ & k & outcome & latency & Hgood)].
  - rewrite Hrun in Hbad. by simplify_eq.
  - cbn zeta in Hgood. destruct Hgood as (Hf & Hpoll & _).
    rewrite Hrun in Hpoll. simplify_eq.
    eexists _, latency. split; [done|]. split; [|done].
    pose proof (attemptInstant_ge fetch (Delay (retryFactory n ())) start k).
    lia.
Qed.

Lemma pollForAddress_finish_ge (n : NetworkInfoBase)
    (fetch : fetcher SpaceAddress) (start : Time) :
  start ≤ snd (pollForAddress n fetch start).
Proof.
  destruct (pollForAddress_cases n fetch start)
    as [(msg & -> & _)|(_ & _ & k & outcome & latency & Hgood)]; [done|].
  cbn zeta in Hgood. destruct Hgood as (_ & -> & _). cbn [snd].
  pose proof (attemptInstant_ge fetch (Delay (retryFactory n ())) start k).
  lia.
Qed.

(** X3. [maybeGetUnitAddress] returns at most one address, and that
    address is one that the store gave for the public or the private
    address of the unit, at an instant of the poll, for a cross-model
    relation. For a relation that is not cross-model it returns nothing
    at once, without polling; and a public address with a value is
    returned when its poll ends, without a poll of the private address. *)
Theorem maybeGetUnitAddress_returns_fetched_address
    (n : NetworkInfoBase) (rel : Relation) (now : Time) :
  (∀ addrs finish,
     maybeGetUnitAddress n rel now = (Ok addrs, finish) →
     addrs = []
     ∨ ∃ a t latency,
         addrs = [a]
         ∧ relRemoteApplication rel = Ok true
         ∧ now ≤ t ∧ finish = t + latency
         ∧ (PublicAddress (unit_ n) t = (Ok a, latency)
            ∨ PrivateAddress (unit_ n) t = (Ok a, latency)))
  ∧ (relRemoteApplication rel = Ok false →
     maybeGetUnitAddress n rel now = (Ok [], now))
  ∧ (∀ a now1,
       relRemoteApplication rel = Ok true →
       pollForAddress n (PublicAddress (unit_ n)) now = (Ok a, now1) →
       Value a ≠ "" →
       maybeGetUnitAddress n rel now = (Ok [a], now1)).
Proof.
  split; [|split].
  - unfold maybeGetUnitAddress. intros addrs finish Hrun.
    destruct (relRemoteApplication rel) as [[|]|err]; cbn in Hrun;
      [|by left; simplify_eq|done].
    destruct (pollForAddress n (PublicAddress _) now) as [public now1]
      eqn:Hpublic.
    assert (Hprivate :
      (let '(polled, now2) :=
         pollForAddress n (PrivateAddress (unit_ n)) now1 in
       match polled with
       | Err _ => (Ok [], now2)
       | Ok address0 =>
           if decide (Value address0 ≠ "") then (Ok [address0], now2)
           else (Ok [], now2)
       end) = (Ok addrs, finish) →
      addrs = []
      ∨ ∃ a t latency,
          addrs = [a] ∧ Ok true = Ok true ∧ now ≤ t ∧ finish = t + latency
          ∧ (PublicAddress (unit_ n) t = (Ok a, latency)
             ∨ PrivateAddress (unit_ n) t = (Ok a, latency))).
    { destruct (pollForAddress n (PrivateAddress _) now1) as [[a|e] now2]
        eqn:Hpoll; [case_decide|]; intros ?; simplify_eq; try by left.
      right. apply pollForAddress_Ok_fetched in Hpoll
        as (t & latency & Hf & Ht & ->).
      exists a, t, latency. repeat split; try done; [|by right].
      pose proof (pollForAddress_finish_ge n (PublicAddress (unit_ n)) now)
        as Hge.
      rewrite Hpublic in Hge. cbn in Hge. lia. }
    destruct public as [a|e]; [case_decide|]; eauto.
    simplify_eq. right.
    apply pollForAddress_Ok_fetched in Hpublic as (t & latency & Hf & Ht & ->).
    exists a, t, latency. repeat split; try done. by left.
  - unfold maybeGetUnitAddress. by intros ->.
  - unfold maybeGetUnitAddress. intros a now1 -> -> Hvalue. cbn.
    by rewrite decide_True.
Qed.

Lemma maybeGetUnitAddress_returns_fetched_address_witness :
  maybeGetUnitAddress sampleBase sampleRelation 0
    = (Ok [NewScopedSpaceAddress "10.1.2.3" ScopeCloudLocal], 36)
  ∧ ([NewScopedSpaceAddress "10.1.2.3" ScopeCloudLocal] = []
     ∨ ∃ a t latency,
         [NewScopedSpaceAddress "10.1.2.3" ScopeCloudLocal] = [a]
         ∧ relRemoteApplication sampleRelation = Ok true
         ∧ 0 ≤ t ∧ 36 = t + latency
         ∧ (PublicAddress (unit_ sampleBase) t = (Ok a, latency)
            ∨ PrivateAddress (unit_ sampleBase) t = (Ok a, latency))).
Proof.
  assert (Hrun : maybeGetUnitAddress sampleBase sampleRelation 0
                 = (Ok [NewScopedSpaceAddress "10.1.2.3" ScopeCloudLocal], 36))
    by (vm_compute; reflexivity).
  split; [exact Hrun|].
  destruct (maybeGetUnitAddress_returns_fetched_address sampleBase
              sampleRelation 0) as (Hfetched & _ & _).
  exact (Hfetched _ _ Hrun).
Defined.

(** ** More on the relation resolver *)

Section ResolverMore.
Context `{Externals}.

Lemma SortAddresses_singleton a : SortAddresses [a] = [a].
Proof. apply Permutation_singleton_r, SortAddresses_Permutation. Qed.

(** X4. When the poll gives an address, the ingress of the relation is
    that address alone and the addresses of the unit are not read: the
    result is the same whatever they are, and an empty egress becomes the
    CIDR of the polled address, or the call fails when the address cannot
    be formatted. *)
Theorem NetworksForRelation_polled_address_wins
    (n : NetworkInfoBase) (binding : string) (rel : Relation)
    (now now1 : Time) (a : SpaceAddress) (egress0 : list string) :
  getRelationEgressSubnets n rel = Ok egress0 →
  maybeGetUnitAddress n rel now = (Ok [a], now1) →
  NetworksForRelation n binding rel true now =
    match egress0 with
    | [] =>
        match toCIDR (Value a) with
        | Ok cidr => (Ok (AlphaSpaceId, [a], [cidr]), now1)
        | Err err => (Err err, now1)
        end
    | _ => (Ok (AlphaSpaceId, [a], egress0), now1)
    end.
Proof.
  intros Hegress Hpoll. unfold NetworksForRelation.
  rewrite Hegress, Hpoll. cbn [length]. rewrite decide_False by done.
  rewrite SortAddresses_singleton. destruct egress0 as [|c egress0]; [|done].
  rewrite FormatAsCIDR_singleton. by destruct (toCIDR (Value a)).
Qed.

Lemma dedupStringListPreservingOrder_nonempty values :
  values ≠ [] → dedupStringListPreservingOrder values ≠ [].
Proof.
  destruct values as [|first rest]; [done|]. intros _ Hnil.
  pose proof (dedupStringListPreservingOrder_head first rest) as Hhead.
  by rewrite Hnil in Hhead.
Qed.

(** X5. Ingress never comes without egress: when [NetworksForRelation]
    returns an ingress that is not empty its egress is not empty, and in a
    response that is not a failure an entry whose ingress addresses are
    not empty has egress subnets. *)
Theorem ingress_comes_with_egress :
  (∀ n binding rel pollAddr now space ingress egress finish,
     NetworksForRelation n binding rel pollAddr now
       = (Ok (space, ingress, egress), finish) →
     ingress ≠ [] → egress ≠ [])
  ∧ (∀ n args now res finish e info,
       ProcessAPIRequest n args now = ((res, None), finish) →
       params.Results res !! e = Some info →
       params.IngressAddresses info ≠ [] →
       params.EgressSubnets info ≠ []).
Proof.
  split.
  - intros n binding rel pollAddr now space ingress egress finish Hrun Hin.
    apply NetworksForRelation_Ok_inv in Hrun
      as (egress0 & polled & candidates & _ & _ & _ & _ & _ & Hrule).
    destruct egress0 as [|c egress0], ingress as [|first rest];
      try done; try by subst.
    by destruct Hrule as (cidr & _ & ->).
  - intros n args now res finish e info Hrun He Hin.
    destruct (ProcessAPIRequest_entries _ _ _ _ _ Hrun e)
      as (Hout & Hbad & _).
    destruct (decide (e ∈ params.Endpoints args)) as [Hreq|Hreq];
      [|rewrite Hout in He; done].
    destruct (bindings n !! e) as [s|] eqn:Hbound.
    2: { rewrite Hbad in He by done. by simplify_eq. }
    destruct (ProcessAPIRequest_endpoint_egress _ _ _ _ _ _ _
                Hrun Hreq Hbound)
      as (egress0 & info0 & Hres & Herr & _ & Hkeep & Hfirst & _).
    rewrite Hres in He. simplify_eq.
    destruct (dedupNetworkInfoResult_fields info0 Herr) as [Hi He'].
    rewrite Hi in Hin. rewrite He'.
    apply dedupStringListPreservingOrder_nonempty.
    destruct egress0 as [|c egress0].
    + destruct (params.IngressAddresses info0) as [|first rest] eqn:Hing;
        [done|].
      by destruct (Hfirst eq_refl first rest eq_refl) as (cidr & _ & ->).
    + by rewrite Hkeep.
Qed.

(** X6. [getRelationNetworkInfo] returns the error of the look-up of the
    relation, of its endpoint or of the application configuration at
    once. It polls only for a cross-model relation of an application whose
    service type is LoadBalancer or ExternalName: otherwise it returns at
    the instant it was entered. What it returns is what
    [NetworksForRelation] gives for the relation and its endpoint, in the
    alpha space. *)
Theorem getRelationNetworkInfo_polls_only_external_services
    (n : NetworkInfoBase) (relationId : Z) (now : Time) :
  (∀ err, stRelation (st n) relationId = Err err →
          getRelationNetworkInfo n relationId now = (Err err, now))
  ∧ (∀ rel err,
       stRelation (st n) relationId = Ok rel →
       relEndpoint rel (ApplicationName (unit_ n)) = Err err →
       getRelationNetworkInfo n relationId now = (Err err, now))
  ∧ (∀ rel endpoint err,
       stRelation (st n) relationId = Ok rel →
       relEndpoint rel (ApplicationName (unit_ n)) = Ok endpoint →
       ApplicationConfig (app n) = Err err →
       getRelationNetworkInfo n relationId now = (Err err, now))
  ∧ (∀ cfg,
       ApplicationConfig (app n) = Ok cfg →
       default "" (cfg !! ServiceTypeConfigKey) ≠ ServiceTypeLoadBalancer →
       default "" (cfg !! ServiceTypeConfigKey) ≠ ServiceTypeExternalName →
       snd (getRelationNetworkInfo n relationId now) = now)
  ∧ (∀ rel,
       stRelation (st n) relationId = Ok rel →
       relRemoteApplication rel = Ok false →
       snd (getRelationNetworkInfo n relationId now) = now)
  ∧ (∀ endpoint space ingress egress finish,
       getRelationNetworkInfo n relationId now
         = (Ok (endpoint, space, ingress, egress), finish) →
       space = AlphaSpaceId
       ∧ ∃ rel pollAddr,
           stRelation (st n) relationId = Ok rel
           ∧ relEndpoint rel (ApplicationName (unit_ n)) = Ok endpoint
           ∧ NetworksForRelation n endpoint rel pollAddr now
             = (Ok (space, ingress, egress), finish)).
Proof.
  unfold getRelationNetworkInfo, getRelationAndEndpointName.
  split; [|split; [|split; [|split; [|split]]]].
  - by intros err ->.
  - by intros rel err -> ->.
  - by intros rel endpoint err -> -> ->.
  - intros cfg Hcfg Hlb Hen.
    destruct (stRelation (st n) relationId) as [rel|]; [|done].
    destruct (relEndpoint rel _) as [endpoint|]; [|done].
    rewrite Hcfg. cbn zeta.
    rewrite bool_decide_eq_false_2 by (by intros [?|?]).
    destruct (NetworksForRelation_finish n endpoint rel false now)
      as [Hnow|[? _]]; [|done].
    by destruct (NetworksForRelation n endpoint rel false now)
      as [[[[space ingress] egress]|err] now1].
  - intros rel Hrel Hlocal.
    fold (getRelationAndEndpointName n relationId).
    fold (getRelationNetworkInfo n relationId now).
    destruct (getRelationNetworkInfo_finish n relationId now)
      as [Hnow|(rel' & Hrel' & ->)]; [done|].
    rewrite Hrel in Hrel'. simplify_eq.
    unfold maybeGetUnitAddress. by rewrite Hlocal.
  - intros endpoint space ingress egress finish Hrun.
    destruct (stRelation (st n) relationId) as [rel|]; [|done].
    destruct (relEndpoint rel _) as [endpoint'|] eqn:Hendpoint; [|done].
    destruct (ApplicationConfig (app n)) as [cfg|]; [|done].
    cbn zeta in Hrun.
    match type of Hrun with
    | context [NetworksForRelation n endpoint' rel ?p now] =>
        destruct (NetworksForRelation n endpoint' rel p now)
          as [[[[space' ingress'] egress']|err] now1] eqn:Hnets;
          [|done];
        simplify_eq;
        pose proof (NetworksForRelation_Ok_inv _ _ _ _ _ _ _ _ _ Hnets)
          as (_ & _ & _ & _ & _ & _ & -> & _);
        split; [done|]; exists rel, p; repeat split; done
    end.
Qed.
End ResolverMore.

Lemma NetworksForRelation_polled_address_wins_witness :
  NetworksForRelation (H := sampleExternals) openBase "db" sampleRelation
    true 0
  = (Ok (AlphaSpaceId, [NewScopedSpaceAddress "10.1.2.3" ScopeCloudLocal],
         ["10.1.2.3/32"]), 36).
Proof.
  rewrite (NetworksForRelation_polled_address_wins (H := sampleExternals)
             openBase "db" sampleRelation 0 36
             (NewScopedSpaceAddress "10.1.2.3" ScopeCloudLocal) []).
  - reflexivity.
  - reflexivity.
  - vm_compute. reflexivity.
Defined.

Lemma ingress_comes_with_egress_witness :
  ["10.0.0.0/24"] ≠ @nil string.
Proof.
  destruct (ingress_comes_with_egress (H := sampleExternals)) as [Hnets _].
  apply (Hnets sampleBase "db" sampleRelation false 0 "0"
           [ NewScopedSpaceAddress "54.1.2.3" ScopePublic;
             NewScopedSpaceAddress "10.1.2.3" ScopeCloudLocal ]
           ["10.0.0.0/24"] 0).
  - vm_compute. reflexivity.
  - discriminate.
Defined.

Lemma getRelationNetworkInfo_polls_only_external_services_witness :
  snd (getRelationNetworkInfo (H := sampleExternals) clusterBase 7 0) = 0.
Proof.
  destruct (getRelationNetworkInfo_polls_only_external_services
              (H := sampleExternals) clusterBase 7 0)
    as (_ & _ & _ & Hquiet & _).
  apply (Hquiet ∅); [reflexivity|discriminate|discriminate].
Defined.

(** ** Addresses of the devices, and deduplicated results *)

(** X7. The addresses made from the device records are the addresses of
    the devices, in their order; each has the fan-local scope when the
    name of its device starts with "fan-" and the unknown scope
    otherwise, so none of them is machine-local. *)
Theorem spaceAddressesFromNetworkInfo_values_and_scopes
    (netInfos : list network.NetworkInfo) :
  Value <$> spaceAddressesFromNetworkInfo netInfos
    = netInfos ≫= (λ nwInfo, network.Address <$> network.Addresses nwInfo)
  ∧ (∀ a, a ∈ spaceAddressesFromNetworkInfo netInfos ↔
          ∃ nwInfo addr,
            nwInfo ∈ netInfos ∧ addr ∈ network.Addresses nwInfo
            ∧ a = NewScopedSpaceAddress (network.Address addr)
                    (if String.prefix "fan-" (network.InterfaceName nwInfo)
                     then ScopeFanLocal else ScopeUnknown))
  ∧ Forall (λ a, Scope a = ScopeFanLocal ∨ Scope a = ScopeUnknown)
      (spaceAddressesFromNetworkInfo netInfos)
  ∧ Forall (λ a, Scope a ≠ ScopeMachineLocal)
      (spaceAddressesFromNetworkInfo netInfos).
Proof.
  assert (Hmem : ∀ a, a ∈ spaceAddressesFromNetworkInfo netInfos ↔
    ∃ nwInfo addr,
      nwInfo ∈ netInfos ∧ addr ∈ network.Addresses nwInfo
      ∧ a = NewScopedSpaceAddress (network.Address addr)
              (if String.prefix "fan-" (network.InterfaceName nwInfo)
               then ScopeFanLocal else ScopeUnknown)).
  { intros a. unfold spaceAddressesFromNetworkInfo.
    rewrite list_elem_of_bind. split.
    - intros (nwInfo & Ha & Hin). apply list_elem_of_fmap in Ha
        as (addr & -> & Haddr). eauto 6.
    - intros (nwInfo & addr & Hin & Haddr & ->). exists nwInfo.
      split; [|done]. apply list_elem_of_fmap. eauto. }
  split; [|split; [done|split]].
  - clear Hmem. unfold spaceAddressesFromNetworkInfo.
    induction netInfos as [|nwInfo netInfos IH]; [done|].
    rewrite !bind_cons, fmap_app, IH. f_equal.
    rewrite <- list_fmap_compose. by apply list_fmap_ext.
  - apply Forall_forall. intros a (nwInfo & addr & _ & _ & ->)%Hmem.
    cbn. destruct (String.prefix _ _); auto.
  - apply Forall_forall. intros a (nwInfo & addr & _ & _ & ->)%Hmem.
    cbn. by destruct (String.prefix _ _).
Qed.

Lemma dedupNetworkInfoResult_idemp (res : params.NetworkInfoResult) :
  dedupNetworkInfoResult (dedupNetworkInfoResult res)
  = dedupNetworkInfoResult res.
Proof.
  unfold dedupNetworkInfoResult.
  destruct (params.Error_ res) as [err|] eqn:Herr.
  - by rewrite Herr.
  - cbn. f_equal.
    + rewrite <- list_fmap_compose. apply list_fmap_ext. intros i info _.
      cbn. f_equal. rewrite !dedupAddrList_loop. apply dedupLoop_idemp.
    + apply dedupLoop_idemp.
    + apply dedupLoop_idemp.
Qed.

(** X8. [dedupNetworkInfoResults] is idempotent and changes no key of the
    result map; it leaves an entry that carries an error as it is, and an
    entry without error stays without error. *)
Theorem dedupNetworkInfoResults_idempotent (info : params.NetworkInfoResults) :
  dedupNetworkInfoResults (dedupNetworkInfoResults info)
    = dedupNetworkInfoResults info
  ∧ (∀ e, is_Some (params.Results (dedupNetworkInfoResults info) !! e)
          ↔ is_Some (params.Results info !! e))
  ∧ (∀ e res, params.Results info !! e = Some res →
       ∃ res', params.Results (dedupNetworkInfoResults info) !! e = Some res'
               ∧ params.Error_ res' = params.Error_ res
               ∧ (params.Error_ res ≠ None → res' = res)).
Proof.
  split; [|split].
  - unfold dedupNetworkInfoResults. cbn. f_equal.
    rewrite <- map_fmap_compose. apply map_fmap_ext. intros e res _.
    apply dedupNetworkInfoResult_idemp.
  - intros e. cbn. rewrite lookup_fmap. by rewrite fmap_is_Some.
  - intros e res Hres. cbn. rewrite lookup_fmap, Hres. cbn.
    exists (dedupNetworkInfoResult res). split; [done|].
    unfold dedupNetworkInfoResult.
    destruct (params.Error_ res) as [err|] eqn:Herr; cbn; [by rewrite Herr|].
    done.
Qed.

(** X9. A deduplication returns its input exactly when the input has no
    duplicate key, and it never returns more than it was given. *)
Theorem dedup_fixed_iff_NoDup :
  (∀ values : list string,
     (dedupStringListPreservingOrder values = values ↔ NoDup values)
     ∧ length (dedupStringListPreservingOrder values) ≤ length values)
  ∧ (∀ addrList : list params.InterfaceAddress,
       (dedupAddrList addrList = addrList
        ↔ NoDup (params.Address <$> addrList))
       ∧ length (dedupAddrList addrList) ≤ length addrList).
Proof.
  split.
  - intros values. unfold dedupStringListPreservingOrder. split.
    + split.
      * intros Heq. rewrite <- Heq, <- (list_fmap_id (dedupLoop _ _ _ _)).
        apply (dedupLoop_NoDup id).
      * intros Hnd. apply dedupLoop_fixed; [by rewrite list_fmap_id|].
        set_solver.
    + apply sublist_length, dedupLoop_sublist.
  - intros addrList. rewrite dedupAddrList_loop. split.
    + split.
      * intros Heq. rewrite <- Heq. apply dedupLoop_NoDup.
      * intros Hnd. apply dedupLoop_fixed; [done|set_solver].
    + apply sublist_length, dedupLoop_sublist.
Qed.

(** ** More on the request processor *)

Section ProcessorMore.
Context `{Externals}.

Lemma requestedEndpoints_same_set n endpoints1 endpoints2 :
  (∀ e, e ∈ endpoints1 ↔ e ∈ endpoints2) →
  requestedEndpoints n endpoints1 = requestedEndpoints n endpoints2.
Proof.
  intros Hsame.
  assert (Hdec : ∀ (B : Type) (e : string) (x y : B),
    (if decide (e ∈ endpoints1) then x else y)
    = (if decide (e ∈ endpoints2) then x else y)).
  { intros B e x y. destruct (decide (e ∈ endpoints1)) as [Hin|Hin],
      (decide (e ∈ endpoints2)) as [Hin'|Hin']; try done;
      exfalso; by apply Hsame in Hin || apply Hsame in Hin'. }
  pose proof (requestedEndpoints_boundSpaces n endpoints1) as Hb1.
  pose proof (requestedEndpoints_boundSpaces n endpoints2) as Hb2.
  pose proof (requestedEndpoints_egress n endpoints1) as He1.
  pose proof (requestedEndpoints_egress n endpoints2) as He2.
  pose proof (requestedEndpoints_results n endpoints1) as Hr1.
  pose proof (requestedEndpoints_results n endpoints2) as Hr2.
  destruct (requestedEndpoints n endpoints1) as [b1 e1 r1],
    (requestedEndpoints n endpoints2) as [b2 e2 r2]. cbn in *.
  f_equal; apply map_eq; intros e.
  - by rewrite Hb1, Hb2.
  - by rewrite He1, He2.
  - by rewrite Hr1, Hr2.
Qed.

Lemma assembleResults_failed body order results0 partial err :
  assembleResults body order results0 = (partial, Some err) →
  ∃ e s, (e, s) ∈ order ∧ body e s = Err err.
Proof.
  revert results0. induction order as [|[e s] order IH];
    intros results0 Hrun; cbn in Hrun; [done|].
  destruct (body e s) as [info|err'] eqn:Hbody.
  - destruct (IH _ Hrun) as (e' & s' & Hin & Hbody'). exists e', s'.
    split; [by right|done].
  - simplify_eq. exists e, s. split; [by left|done].
Qed.

(** The second loop fails when one of its turns does, wherever the turn
    comes in the order. *)
Lemma assembleResults_fails body order results0 e s err :
  (e, s) ∈ order → body e s = Err err →
  ∃ partial err', assembleResults body order results0 = (partial, Some err').
Proof.
  revert results0. induction order as [|[e' s'] order IH];
    intros results0 Hin Hbody; [by apply elem_of_nil in Hin|].
  cbn. destruct (body e' s') as [info|err'] eqn:Hbody'; [|eauto].
  apply elem_of_cons in Hin as [Heq|Hin];
    [injection Heq as -> ->; congruence|].
  by apply IH.
Qed.

(** A turn of the second loop fails only for an endpoint with no egress,
    on the first address of its ingress. *)
Lemma endpointResult_Err networkInfos egressMap ingressMap defaultIngress
    e s err :
  endpointResult networkInfos egressMap ingressMap defaultIngress e s
    = Err err →
  default [] (egressMap !! e) = []
  ∧ ∃ first rest,
      match Value <$> default [] (ingressMap !! e), defaultIngress with
      | given :: others, _ => given :: others
      | [], given :: others => given :: others
      | [], [] =>
          Value <$> SortAddresses
            (spaceAddressesFromNetworkInfo
               (NetworkInfos
                  (default {| NetworkInfos := []; Error := None |}
                     (networkInfos !! s))))
      end = first :: rest
      ∧ toCIDR first = Err err.
Proof.
  rewrite endpointResult_turn. cbv zeta.
  destruct (default [] (egressMap !! e)) as [|c egress0]; [|done].
  match goal with
  | |- context [match ?l with [] => Ok _ | first :: _ => _ end] =>
      destruct l as [|first rest]
  end; [done|].
  destruct (toCIDR first) as [cidr|err'] eqn:Hcidr; [done|].
  intros ?; simplify_eq. eauto.
Qed.

(** A relation resolved with no egress has no ingress either. *)
Lemma getRelationNetworkInfo_no_egress n relationId now endpoint space
    ingress finish :
  getRelationNetworkInfo n relationId now
    = (Ok (endpoint, space, ingress, []), finish) →
  ingress = [].
Proof.
  unfold getRelationNetworkInfo. intros Hrun.
  destruct (getRelationAndEndpointName n relationId) as [[rel ep]|]; [|done].
  destruct (ApplicationConfig (app n)) as [cfg|]; [|done].
  cbv zeta in Hrun.
  match type of Hrun with
  | context [NetworksForRelation n ep rel ?p now] =>
      destruct (NetworksForRelation n ep rel p now)
        as [[[[space' ingress'] egress']|err] now1] eqn:Hnets; [|done];
      simplify_eq;
      apply NetworksForRelation_Ok_inv in Hnets
        as (egress0 & polled & candidates & _ & _ & _ & _ & _ & Hrule)
  end.
  destruct ingress as [|first rest]; [done|].
  destruct egress0 as [|c egress0]; [|done].
  by destruct Hrule as (cidr & _ & ?).
Qed.

(** When the relation of the request, if it has one, is resolved, the
    second part runs on maps in which a requested endpoint has either the
    default egress and no ingress of its own, the relation giving it no
    egress, or the egress of the relation, which is then not empty. *)
Lemma ProcessAPIRequest_cases n args now :
  (∃ relationId err finish,
     params.RelationId args = Some relationId
     ∧ getRelationNetworkInfo n relationId now = (Err err, finish)
     ∧ ProcessAPIRequest n args now
       = (({| params.Results := ∅ |}, Some err), finish))
  ∨ (∃ maps ingressMap finish,
       ProcessAPIRequest n args now
         = (assembleFromAddresses n maps ingressMap, finish)
       ∧ (∀ e,
            boundSpaces maps !! e =
              if decide (e ∈ params.Endpoints args) then bindings n !! e
              else None)
       ∧ (∀ e, e ∈ params.Endpoints args →
            (default [] (endpointEgressSubnets maps !! e) = defaultEgress n
             ∧ default [] (ingressMap !! e) = []
             ∧ ∀ relationId space ingress egress finish',
                 params.RelationId args = Some relationId →
                 getRelationNetworkInfo n relationId now
                   = (Ok (e, space, ingress, egress), finish') →
                 egress = [])
            ∨ (∃ relationId space ingress egress,
                 params.RelationId args = Some relationId
                 ∧ getRelationNetworkInfo n relationId now
                   = (Ok (e, space, ingress, egress), finish)
                 ∧ egress ≠ []
                 ∧ default [] (endpointEgressSubnets maps !! e) = egress))).
Proof.
  unfold ProcessAPIRequest. cbv zeta.
  destruct (params.RelationId args) as [relationId|].
  - destruct (getRelationNetworkInfo n relationId now)
      as [[[[[endpoint space] ingress] egress]|err] now1] eqn:Hrel.
    + right. eexists _, _, _. split; [done|]. split.
      * intros e. rewrite setRelationEgress_boundSpaces.
        apply requestedEndpoints_boundSpaces.
      * intros e Hin. destruct (decide (e = endpoint)) as [->|Hne].
        -- rewrite setRelationEgress_egress_eq, lookup_singleton_eq.
           rewrite requestedEndpoints_egress.
           rewrite (decide_True (P := endpoint ∈ params.Endpoints args))
             by done.
           destruct egress as [|c egress].
           ++ left. rewrite decide_True by done. split; [done|]. split.
              ** cbn. by eapply getRelationNetworkInfo_no_egress.
              ** intros relationId' space' ingress' egress' finish' Hid Hrel'.
                 simplify_eq. rewrite Hrel in Hrel'. by simplify_eq.
           ++ right. rewrite decide_False by done. eauto 10.
        -- left. rewrite setRelationEgress_egress_ne by done.
           rewrite requestedEndpoints_egress, decide_True by done.
           rewrite lookup_singleton_ne by done. split; [done|].
           split; [done|].
           intros relationId' space' ingress' egress' finish' Hid Hrel'.
           simplify_eq. rewrite Hrel in Hrel'. by simplify_eq.
    + left. eauto 10.
  - right. eexists _, _, _. split; [done|]. split.
    + apply requestedEndpoints_boundSpaces.
    + intros e Hin. left.
      rewrite requestedEndpoints_egress, decide_True, lookup_empty by done.
      done.
Qed.

(** X11. A request fails as a whole in three ways only. The resolution of
    its relation fails: that error is returned with no result. The
    addresses of the unit cannot be read: the request then always fails
    with no result. Or a requested and bound endpoint is left with no
    egress, neither a default one nor one of the relation, and the first
    ingress address that the unit gives it cannot be formatted as a CIDR:
    the first of the sorted addresses that are not machine-local or, when
    there is none, the first of the sorted addresses of the devices of the
    space of the endpoint. Such an endpoint always makes the request fail,
    wherever its turn comes in the second loop. *)
Theorem ProcessAPIRequest_failures
    (n : NetworkInfoBase) (args : params.NetworkInfoParams) (now : Time) :
  (∀ relationId err finish,
     params.RelationId args = Some relationId →
     getRelationNetworkInfo n relationId now = (Err err, finish) →
     ProcessAPIRequest n args now
       = (({| params.Results := ∅ |}, Some err), finish))
  ∧ (∀ err,
       AllAddresses (unit_ n) = Err err →
       ∃ err' finish,
         ProcessAPIRequest n args now
           = (({| params.Results := ∅ |}, Some err'), finish)
         ∧ (err' = err
            ∨ ∃ relationId,
                params.RelationId args = Some relationId
                ∧ getRelationNetworkInfo n relationId now
                  = (Err err', finish)))
  ∧ (∀ res err finish,
       ProcessAPIRequest n args now = ((res, Some err), finish) →
       (∃ relationId,
          params.RelationId args = Some relationId
          ∧ getRelationNetworkInfo n relationId now = (Err err, finish)
          ∧ res = {| params.Results := ∅ |})
       ∨ (AllAddresses (unit_ n) = Err err
          ∧ res = {| params.Results := ∅ |})
       ∨ (∃ e s addrs first rest,
            e ∈ params.Endpoints args
            ∧ bindings n !! e = Some s
            ∧ AllAddresses (unit_ n) = Ok addrs
            ∧ defaultEgress n = []
            ∧ (∀ relationId space ingress egress finish',
                 params.RelationId args = Some relationId →
                 getRelationNetworkInfo n relationId now
                   = (Ok (e, space, ingress, egress), finish') →
                 egress = [])
            ∧ match defaultIngressAddressesOf (SortAddresses addrs) with
              | given :: others => given :: others
              | [] =>
                  Value <$> SortAddresses
                    (spaceAddressesFromNetworkInfo
                       (NetworkInfos
                          (default {| NetworkInfos := []; Error := None |}
                             (networkInfosOf (SortAddresses addrs) !! s))))
              end = first :: rest
            ∧ toCIDR first = Err err))
  ∧ (∀ e s addrs first rest err,
       e ∈ params.Endpoints args →
       bindings n !! e = Some s →
       AllAddresses (unit_ n) = Ok addrs →
       defaultEgress n = [] →
       (∀ relationId space ingress egress finish,
          params.RelationId args = Some relationId →
          getRelationNetworkInfo n relationId now
            = (Ok (e, space, ingress, egress), finish) →
          egress = []) →
       match defaultIngressAddressesOf (SortAddresses addrs) with
       | given :: others => given :: others
       | [] =>
           Value <$> SortAddresses
             (spaceAddressesFromNetworkInfo
                (NetworkInfos
                   (default {| NetworkInfos := []; Error := None |}
                      (networkInfosOf (SortAddresses addrs) !! s))))
       end = first :: rest →
       toCIDR first = Err err →
       ∃ res err' finish,
         ProcessAPIRequest n args now = ((res, Some err'), finish)).
Proof.
  assert (Haddrs : ∀ maps ingressMap err,
    AllAddresses (unit_ n) = Err err →
    assembleFromAddresses n maps ingressMap
    = ({| params.Results := ∅ |}, Some err)).
  { intros maps ingressMap err Herr. unfold assembleFromAddresses.
    by rewrite Herr. }
  split; [|split; [|split]].
  - intros relationId err finish Hid Hrel. unfold ProcessAPIRequest.
    by rewrite Hid, Hrel.
  - intros err Herr. unfold ProcessAPIRequest.
    destruct (params.RelationId args) as [relationId|].
    + destruct (getRelationNetworkInfo n relationId now)
        as [[[[[endpoint space] ingress] egress]|err'] now1] eqn:Hrel.
      * rewrite (Haddrs _ _ err Herr). eauto.
      * exists err', now1. split; [done|]. right. eauto.
    + rewrite (Haddrs _ _ err Herr). eauto.
  - intros res err finish Hrun.
    destruct (ProcessAPIRequest_cases n args now)
      as [(relationId & err' & finish' & Hid & Hrel & Hrun')
         |(maps & ingressMap & finish' & Hrun' & Hbound & Hmaps)];
      rewrite Hrun' in Hrun.
    { simplify_eq. left. eauto. }
    right. injection Hrun as Hrun <-. revert Hrun.
    unfold assembleFromAddresses.
    destruct (AllAddresses (unit_ n)) as [addrs|err0] eqn:Hall;
      [|intros ?; simplify_eq; by left].
    destruct (assembleResults _ _ _) as [partial [err0|]] eqn:Hloop;
      [|done].
    intros ?; simplify_eq. right.
    apply assembleResults_failed in Hloop as (e & s & Hin & Hbody).
    apply elem_of_rangeOrder in Hin. rewrite Hbound in Hin.
    case_decide as Hreq; [|done].
    apply endpointResult_Err in Hbody
      as (Hempty & first & rest & Hchain & Hcidr).
    exists e, s, addrs, first, rest.
    destruct (Hmaps e Hreq)
      as [(Hegress & Hgiven & Hnone)
         |(relationId & space & ingress & egress & Hid & Hrel & Hne & Heg)];
      [|congruence].
    rewrite Hgiven in Hchain. cbn [fmap list_fmap] in Hchain.
    repeat split; try done. congruence.
  - intros e s addrs first rest err Hreq Hb Hall Hopen Hrel Hchain Hcidr.
    destruct (ProcessAPIRequest_cases n args now)
      as [(relationId & err' & finish' & Hid & Hrel' & Hrun')
         |(maps & ingressMap & finish' & Hrun' & Hbound & Hmaps)];
      [eauto|].
    rewrite Hrun'. unfold assembleFromAddresses. rewrite Hall. cbv zeta.
    destruct (Hmaps e Hreq)
      as [(Hegress & Hgiven & _)
         |(relationId & space & ingress & egress & Hid & Hrel' & Hne & _)].
    2: { exfalso. apply Hne. by eapply Hrel. }
    match goal with
    | |- context [assembleResults ?body ?order ?results0] =>
        destruct (assembleResults_fails body order results0 e s err)
          as (partial & err' & Hloop)
    end.
    + apply elem_of_rangeOrder. by rewrite Hbound, decide_True.
    + rewrite endpointResult_turn. cbv zeta.
      rewrite Hegress, Hopen, Hgiven. cbn [fmap list_fmap].
      by rewrite Hchain, Hcidr.
    + rewrite Hloop. eauto.
Qed.
End ProcessorMore.

Lemma ProcessAPIRequest_failures_witness :
  ∃ res err finish,
    ProcessAPIRequest (H := sampleExternals) blankBase samplePlainRequest 0
    = ((res, Some err), finish).
Proof.
  destruct (ProcessAPIRequest_failures (H := sampleExternals) blankBase
              samplePlainRequest 0) as (_ & _ & _ & Hturn).
  apply (Hturn "db" "0" [NewScopedSpaceAddress "" ScopePublic] "" []
           (ErrOther "empty address")).
  - cbn. rewrite !elem_of_cons. tauto.
  - reflexivity.
  - reflexivity.
  - reflexivity.
  - intros relationId space ingress egress finish Hid. discriminate Hid.
  - vm_compute. reflexivity.
  - reflexivity.
Defined.

(** ** The order of the second loop *)

(** Two runs of the engine with collaborators that behave alike, under
    runtimes that may range over the bindings in different orders. *)
Section RangeOrders.
Context (H1 H2 : Externals).
Hypothesis SortAddresses_agree :
  ∀ addrs, @SortAddresses H1 addrs = @SortAddresses H2 addrs.
Hypothesis toCIDR_agree : ∀ a, @toCIDR H1 a = @toCIDR H2 a.
Hypothesis quote_agree : ∀ s, @quote H1 s = @quote H2 s.

Lemma FormatAsCIDR_agree addresses :
  FormatAsCIDR (H := H1) addresses = FormatAsCIDR (H := H2) addresses.
Proof.
  induction addresses as [|a rest IH]; [done|].
  cbn. by rewrite toCIDR_agree, IH.
Qed.

Lemma NetworksForRelation_agree n binding rel pollAddr now :
  NetworksForRelation (H := H1) n binding rel pollAddr now
  = NetworksForRelation (H := H2) n binding rel pollAddr now.
Proof.
  unfold NetworksForRelation.
  destruct (getRelationEgressSubnets n rel) as [egress|]; [|done].
  destruct (if pollAddr then _ else _) as [[polled|] now1]; [|done].
  cbv zeta. rewrite SortAddresses_agree.
  destruct egress as [|c egress]; [|done].
  destruct (@SortAddresses H2 _) as [|first rest]; [done|].
  by rewrite FormatAsCIDR_agree.
Qed.

Lemma getRelationNetworkInfo_agree n relationId now :
  getRelationNetworkInfo (H := H1) n relationId now
  = getRelationNetworkInfo (H := H2) n relationId now.
Proof.
  unfold getRelationNetworkInfo.
  destruct (getRelationAndEndpointName n relationId) as [[rel ep]|]; [|done].
  destruct (ApplicationConfig (app n)) as [cfg|]; [|done].
  cbv zeta. by rewrite NetworksForRelation_agree.
Qed.

Lemma endpointResult_agree networkInfos egressMap ingressMap defaultIngress
    e s :
  endpointResult (H := H1) networkInfos egressMap ingressMap defaultIngress
    e s
  = endpointResult (H := H2) networkInfos egressMap ingressMap
      defaultIngress e s.
Proof.
  rewrite !endpointResult_turn. cbv zeta. rewrite SortAddresses_agree.
  destruct (default [] (egressMap !! e)) as [|c egress]; [|done].
  match goal with
  | |- context [match ?l with [] => Ok _ | first :: _ => _ end] =>
      destruct l as [|first rest]
  end; [done|].
  by rewrite toCIDR_agree.
Qed.

Lemma requestedEndpoints_agree n endpoints :
  requestedEndpoints (H := H1) n endpoints
  = requestedEndpoints (H := H2) n endpoints.
Proof.
  unfold requestedEndpoints.
  generalize {| boundSpaces := ∅; endpointEgressSubnets := ∅;
                results := ∅ |}.
  induction endpoints as [|e endpoints IH]; intros maps; [done|].
  cbn. rewrite <- IH. f_equal.
  unfold validateEndpoint, bindingNotValid. by rewrite quote_agree.
Qed.

(** The second part of a request succeeds under one order exactly when
    it does under the other, with the same response. *)
Lemma assembleFromAddresses_orders n maps ingressMap :
  (∀ res,
     assembleFromAddresses (H := H1) n maps ingressMap = (res, None) →
     assembleFromAddresses (H := H2) n maps ingressMap = (res, None))
  ∧ (∀ partial err,
       assembleFromAddresses (H := H1) n maps ingressMap
         = (partial, Some err) →
       ∃ partial' err',
         assembleFromAddresses (H := H2) n maps ingressMap
           = (partial', Some err')).
Proof.
  split.
  - intros res Hrun.
    apply assembleFromAddresses_inv in Hrun
      as (addrs & all & Haddrs & Hloop & ->).
    unfold assembleFromAddresses. rewrite Haddrs. cbv zeta.
    rewrite <- SortAddresses_agree.
    set (body1 := endpointResult (H := H1) _ _ _ _) in Hloop.
    set (body2 := endpointResult (H := H2) _ _ _ _).
    assert (Hbody : ∀ e s, body2 e s = body1 e s).
    { intros e s. subst body1 body2. symmetry. apply endpointResult_agree. }
    destruct (assembleResults_total body2
                (@rangeOrder H2 (boundSpaces maps)) (results maps))
      as [all2 Hloop2].
    { intros e s Hin. apply (elem_of_rangeOrder (H := H2)) in Hin.
      pose proof (assembleResults_rangeOrder (H := H1) _ _ _ _ Hloop e)
        as He.
      rewrite Hin in He. destruct He as (info & Hinfo & _).
      rewrite Hbody. eauto. }
    rewrite Hloop2. do 3 f_equal. apply map_eq. intros e.
    pose proof (assembleResults_rangeOrder (H := H1) _ _ _ _ Hloop e) as He1.
    pose proof (assembleResults_rangeOrder (H := H2) _ _ _ _ Hloop2 e)
      as He2.
    destruct (boundSpaces maps !! e) as [s|]; [|congruence].
    destruct He1 as (info1 & Hinfo1 & ->), He2 as (info2 & Hinfo2 & ->).
    rewrite Hbody in Hinfo2. congruence.
  - intros partial err. unfold assembleFromAddresses.
    destruct (AllAddresses (unit_ n)) as [addrs|err0]; [|eauto].
    cbv zeta. rewrite <- SortAddresses_agree.
    destruct (assembleResults _ (@rangeOrder H1 _) _)
      as [partial1 [err1|]] eqn:Hloop; [|done].
    intros _.
    apply assembleResults_failed in Hloop as (e & s & Hin & Hbody).
    apply (elem_of_rangeOrder (H := H1)) in Hin.
    rewrite endpointResult_agree in Hbody.
    match goal with
    | |- context [assembleResults ?body ?order ?results0] =>
        destruct (assembleResults_fails body order results0 e s err1)
          as (partial2 & err2 & Hloop2)
    end.
    + by apply (elem_of_rangeOrder (H := H2)).
    + done.
    + rewrite Hloop2. eauto.
Qed.

(** X10. Whether a request succeeds, the instant at which it returns and
    the response of a request that succeeds depend on the set of the
    requested endpoint names only: neither the order of the names in the
    request, nor their repetitions, nor the order in which the runtime
    visits the bindings change them. The partial results and the error of
    a request that fails in the second loop are not part of this: they
    depend on the turn that fails first. *)
Theorem ProcessAPIRequest_depends_on_endpoint_set
    (n : NetworkInfoBase) (relationId : option Z)
    (endpoints1 endpoints2 : list string) (now : Time) :
  (∀ e, e ∈ endpoints1 ↔ e ∈ endpoints2) →
  let run1 :=
    ProcessAPIRequest (H := H1) n
      {| params.RelationId := relationId; params.Endpoints := endpoints1 |}
      now in
  let run2 :=
    ProcessAPIRequest (H := H2) n
      {| params.RelationId := relationId; params.Endpoints := endpoints2 |}
      now in
  run2.2 = run1.2
  ∧ (run2.1.2 = None ↔ run1.1.2 = None)
  ∧ (run1.1.2 = None → run2 = run1).
Proof.
  intros Hsame. cbv zeta. unfold ProcessAPIRequest.
  cbn [params.RelationId params.Endpoints].
  rewrite <- requestedEndpoints_agree.
  rewrite <- (requestedEndpoints_same_set (H := H1) n endpoints1 endpoints2)
    by done.
  set (maps := requestedEndpoints (H := H1) n endpoints1).
  assert (Hpart : ∀ maps0 ingressMap (finish : Time),
    let run1 := (assembleFromAddresses (H := H1) n maps0 ingressMap, finish) in
    let run2 := (assembleFromAddresses (H := H2) n maps0 ingressMap, finish) in
    run2.2 = run1.2
    ∧ (run2.1.2 = None ↔ run1.1.2 = None)
    ∧ (run1.1.2 = None → run2 = run1)).
  { intros maps0 ingressMap finish. cbn.
    destruct (assembleFromAddresses_orders n maps0 ingressMap)
      as [Hok Hfail].
    destruct (assembleFromAddresses (H := H1) n maps0 ingressMap)
      as [res1 [err1|]] eqn:Hrun1.
    - destruct (Hfail res1 err1 eq_refl) as (partial' & err' & ->). cbn.
      split; [done|]. split; [split; intros; done|done].
    - rewrite (Hok res1 eq_refl). done. }
  destruct relationId as [relationId|]; [|apply Hpart].
  rewrite <- getRelationNetworkInfo_agree.
  destruct (getRelationNetworkInfo (H := H1) n relationId now)
    as [[[[[endpoint space] ingress] egress]|err] now1]; [apply Hpart|].
  cbn. split; [done|]. split; [split; intros; done|done].
Qed.
End RangeOrders.

Lemma ProcessAPIRequest_depends_on_endpoint_set_witness :
  ProcessAPIRequest (H := reversedExternals) sampleBase
    {| params.RelationId := Some 7%Z;
       params.Endpoints := ["db"; "website"; "admin"] |} 0
  = ProcessAPIRequest (H := sampleExternals) sampleBase
      {| params.RelationId := Some 7%Z;
         params.Endpoints := ["website"; "admin"; "db"; "website"] |} 0.
Proof.
  destruct (ProcessAPIRequest_depends_on_endpoint_set
              sampleExternals reversedExternals
              (λ addrs, eq_refl) (λ a, eq_refl) (λ s, eq_refl)
              sampleBase (Some 7%Z)
              ["website"; "admin"; "db"; "website"]
              ["db"; "website"; "admin"] 0)
    as (_ & _ & Hsame).
  - intros e. rewrite !elem_of_cons, !elem_of_nil. tauto.
  - apply Hsame. vm_compute. reflexivity.
Defined.

(** The two orders at work on a request that fails: with relation 7, no
    default egress and a unit whose only address cannot be formatted, the
    turn of the endpoint of the relation succeeds and the other one
    fails; the results returned with the error hold the entry of the
    relation's endpoint when its turn came first, and nothing when it did
    not. *)
Example ProcessAPIRequest_partial_results_example :
  let run1 :=
    ProcessAPIRequest (H := sampleExternals) blankBase
      sampleRelationRequest 0 in
  let run2 :=
    ProcessAPIRequest (H := reversedExternals) blankBase
      sampleRelationRequest 0 in
  run1.1.2 = Some (ErrOther "empty address")
  ∧ run2.1.2 = Some (ErrOther "empty address")
  ∧ params.Results run1.1.1 !! "db" = None
  ∧ is_Some (params.Results run2.1.1 !! "db").
Proof.
  cbv zeta. repeat split; try (vm_compute; reflexivity).
  vm_compute. eauto.
Qed.

(** ** What a response holds *)

Section ResponseFacts.
Context `{Externals}.

(** The entry of a requested and bound endpoint is the deduplicated
    result of its turn of the second loop. *)
Lemma ProcessAPIRequest_bound_entry n args now finish res e s :
  ProcessAPIRequest n args now = ((res, None), finish) →
  e ∈ params.Endpoints args →
  bindings n !! e = Some s →
  ∃ addrs maps ingressMap info,
    AllAddresses (unit_ n) = Ok addrs
    ∧ endpointEgressSubnets maps !! e ≠ None
    ∧ (params.RelationId args = None →
       ingressMap = ∅
       ∧ endpointEgressSubnets maps !! e = Some (defaultEgress n))
    ∧ endpointResult (networkInfosOf (SortAddresses addrs))
        (endpointEgressSubnets maps) ingressMap
        (defaultIngressAddressesOf (SortAddresses addrs)) e s = Ok info
    ∧ params.Error_ info = None
    ∧ params.Results res !! e = Some (dedupNetworkInfoResult info).
Proof.
  intros Hrun Hin Hbound.
  apply ProcessAPIRequest_inv in Hrun as (maps & ingressMap & Hrun & Hmaps).
  apply assembleFromAddresses_lookup in Hrun as (addrs & Haddrs & Hlookup).
  specialize (Hlookup e).
  assert (boundSpaces maps !! e = Some s
          ∧ endpointEgressSubnets maps !! e ≠ None
          ∧ (params.RelationId args = None →
             ingressMap = ∅
             ∧ endpointEgressSubnets maps !! e = Some (defaultEgress n)))
    as (Hb & Hsome & Hplain).
  { destruct (params.RelationId args) as [relationId|].
    - destruct Hmaps as (ep & sp & ing & eg & _ & _ & ->).
      rewrite setRelationEgress_boundSpaces, requestedEndpoints_boundSpaces,
        decide_True by done.
      split; [done|]. split; [|done].
      destruct (decide (e = ep)) as [->|Hne].
      + rewrite setRelationEgress_egress_eq. case_decide; [|done].
        by rewrite requestedEndpoints_egress, decide_True.
      + rewrite setRelationEgress_egress_ne by done.
        by rewrite requestedEndpoints_egress, decide_True.
    - destruct Hmaps as (_ & -> & ->).
      rewrite requestedEndpoints_boundSpaces, requestedEndpoints_egress,
        !decide_True by done.
      done. }
  rewrite Hb in Hlookup. destruct Hlookup as (info & Hinfo & Hres).
  exists addrs, maps, ingressMap, info.
  repeat split; try done; try by apply Hplain.
  by eapply endpointResult_no_Error.
Qed.

(** X12. In a response that is not a failure every entry is free of
    duplicates: its ingress addresses, its egress subnets and the
    addresses of each of its devices. An entry that carries an error is
    the not-valid error of its endpoint, and holds nothing else. *)
Theorem response_entries_have_no_duplicates
    (n : NetworkInfoBase) (args : params.NetworkInfoParams)
    (now finish : Time) (res : params.NetworkInfoResults)
    (e : string) (info : params.NetworkInfoResult) :
  ProcessAPIRequest n args now = ((res, None), finish) →
  params.Results res !! e = Some info →
  NoDup (params.IngressAddresses info)
  ∧ NoDup (params.EgressSubnets info)
  ∧ Forall (λ device, NoDup (params.Address <$> params.Addresses device))
      (params.Info info)
  ∧ (params.Error_ info ≠ None → info = bindingNotValid e).
Proof.
  intros Hrun He.
  destruct (ProcessAPIRequest_entries _ _ _ _ _ Hrun e) as (Hout & Hbad & _).
  destruct (decide (e ∈ params.Endpoints args)) as [Hreq|Hreq];
    [|rewrite Hout in He; done].
  destruct (bindings n !! e) as [s|] eqn:Hbound.
  2: { rewrite Hbad in He by done. simplify_eq. cbn.
       repeat split; constructor. }
  destruct (ProcessAPIRequest_bound_entry _ _ _ _ _ _ _ Hrun Hreq Hbound)
    as (addrs & maps & ingressMap & info0 & _ & _ & _ & _ & Herr & Hres).
  rewrite Hres in He. simplify_eq.
  unfold dedupNetworkInfoResult. rewrite Herr. cbn.
  unfold dedupStringListPreservingOrder. repeat split.
  - rewrite <- (list_fmap_id (dedupLoop id ∅ [] _)).
    apply (dedupLoop_NoDup id).
  - rewrite <- (list_fmap_id (dedupLoop id ∅ [] _)).
    apply (dedupLoop_NoDup id).
  - apply Forall_fmap, Forall_forall. intros device _. cbn.
    rewrite dedupAddrList_loop. apply dedupLoop_NoDup.
  - done.
Qed.

(** The ingress addresses of a turn of the second loop: those given for
    the endpoint, else the default ones, else those of the devices of the
    space. *)
Lemma endpointResult_ingress_chain networkInfos egressMap ingressMap
    defaultIngress e s info :
  endpointResult networkInfos egressMap ingressMap defaultIngress e s
    = Ok info →
  params.IngressAddresses info =
    match Value <$> default [] (ingressMap !! e), defaultIngress with
    | first :: rest, _ => first :: rest
    | [], first :: rest => first :: rest
    | [], [] =>
        Value <$> SortAddresses (spaceAddressesFromNetworkInfo
          (NetworkInfos (default {| NetworkInfos := []; Error := None |}
                           (networkInfos !! s))))
    end.
Proof.
  unfold endpointResult. cbv zeta.
  generalize (default [] (egressMap !! e)). intros egress0.
  set (fallback := Value <$> SortAddresses (spaceAddressesFromNetworkInfo
    (NetworkInfos (default {| NetworkInfos := []; Error := None |}
                     (networkInfos !! s))))).
  assert (Hchain : ∀ given,
    (if decide (length
          (if decide (length given = 0) then defaultIngress else given) = 0)
     then fallback
     else if decide (length given = 0) then defaultIngress else given)
    = match given, defaultIngress with
      | first :: rest, _ => first :: rest
      | [], first :: rest => first :: rest
      | [], [] => fallback
      end).
  { intros [|i1 given]; destruct defaultIngress as [|d1 others]; done. }
  rewrite Hchain.
  generalize (match Value <$> default [] (ingressMap !! e), defaultIngress with
              | first :: rest, _ => first :: rest
              | [], first :: rest => first :: rest
              | [], [] => fallback
              end).
  intros ingressAddrs Hrun.
  destruct egress0 as [|c egress0], ingressAddrs as [|first rest];
    try by simplify_eq.
  rewrite FormatAsCIDR_singleton in Hrun.
  destruct (toCIDR first); by simplify_eq.
Qed.

Lemma endpointResult_same_maps networkInfos egressMap ingressMap
    defaultIngress e1 e2 s :
  egressMap !! e1 = egressMap !! e2 →
  ingressMap !! e1 = ingressMap !! e2 →
  endpointResult networkInfos egressMap ingressMap defaultIngress e1 s
  = endpointResult networkInfos egressMap ingressMap defaultIngress e2 s.
Proof. unfold endpointResult. by intros -> ->. Qed.

(** X13. Outside a relation, two requested endpoints that the application
    binds to the same space have the same entry in the response. *)
Theorem same_space_same_entry
    (n : NetworkInfoBase) (endpoints : list string) (now finish : Time)
    (res : params.NetworkInfoResults) (e1 e2 s : string) :
  ProcessAPIRequest n
    {| params.RelationId := None; params.Endpoints := endpoints |} now
    = ((res, None), finish) →
  e1 ∈ endpoints → e2 ∈ endpoints →
  bindings n !! e1 = Some s → bindings n !! e2 = Some s →
  params.Results res !! e1 = params.Results res !! e2.
Proof.
  intros Hrun Hin1 Hin2 Hb1 Hb2.
  apply ProcessAPIRequest_inv in Hrun as (maps & ingressMap & Hrun & Hmaps).
  cbn [params.RelationId params.Endpoints] in Hmaps.
  destruct Hmaps as (_ & -> & ->).
  apply assembleFromAddresses_lookup in Hrun as (addrs & _ & Hlookup).
  pose proof (Hlookup e1) as H1. pose proof (Hlookup e2) as H2.
  rewrite requestedEndpoints_boundSpaces, decide_True, Hb1 in H1 by done.
  rewrite requestedEndpoints_boundSpaces, decide_True, Hb2 in H2 by done.
  destruct H1 as (info1 & Hinfo1 & ->), H2 as (info2 & Hinfo2 & ->).
  rewrite (endpointResult_same_maps _ _ _ _ e1 e2) in Hinfo1.
  - rewrite Hinfo1 in Hinfo2. by simplify_eq.
  - by rewrite !requestedEndpoints_egress, !decide_True.
  - done.
Qed.

Lemma filter_not_machine_local_nil (addrs : list SpaceAddress) :
  filter (λ a, Scope a ≠ ScopeMachineLocal) addrs = [] →
  filter (λ a, Scope a = ScopeMachineLocal) addrs = addrs.
Proof.
  induction addrs as [|a addrs IH]; [done|].
  rewrite !filter_cons. repeat case_decide; try done.
  intros Hnil. f_equal. by apply IH.
Qed.

(** X14. When the unit has an address, every requested endpoint bound to
    the alpha space has an ingress address in a response that is not a
    failure: machine-local addresses are used when there is nothing
    else. *)
Theorem ingress_nonempty_when_unit_has_address
    (n : NetworkInfoBase) (args : params.NetworkInfoParams)
    (now finish : Time) (res : params.NetworkInfoResults)
    (e : string) (addrs : list SpaceAddress) :
  ProcessAPIRequest n args now = ((res, None), finish) →
  e ∈ params.Endpoints args →
  bindings n !! e = Some AlphaSpaceId →
  AllAddresses (unit_ n) = Ok addrs →
  addrs ≠ [] →
  ∃ info, params.Results res !! e = Some info
          ∧ params.Error_ info = None
          ∧ params.IngressAddresses info ≠ [].
Proof.
  intros Hrun Hin Hbound Haddrs Hne.
  destruct (ProcessAPIRequest_bound_entry _ _ _ _ _ _ _ Hrun Hin Hbound)
    as (addrs' & maps & ingressMap & info0 & Haddrs' & _ & _
        & Hinfo & Herr & Hres).
  rewrite Haddrs in Haddrs'. simplify_eq.
  exists (dedupNetworkInfoResult info0). split; [done|].
  destruct (dedupNetworkInfoResult_fields info0 Herr) as [-> _].
  split; [unfold dedupNetworkInfoResult; by rewrite Herr|].
  apply dedupStringListPreservingOrder_nonempty.
  rewrite (endpointResult_ingress_chain _ _ _ _ _ _ _ Hinfo).
  destruct (Value <$> default [] (ingressMap !! e)) as [|i1 given]; [|done].
  unfold defaultIngressAddressesOf.
  destruct (filter (λ a, Scope a ≠ ScopeMachineLocal) (SortAddresses addrs'))
    as [|d1 others] eqn:Hfilter; [|done].
  cbn [fmap list_fmap]. unfold networkInfosOf.
  rewrite lookup_singleton_eq. cbn [default from_option id NetworkInfos].
  unfold spaceAddressesFromNetworkInfo, interfaceAddrOf.
  rewrite bind_singleton. cbn [network.Addresses network.InterfaceName].
  rewrite (filter_not_machine_local_nil _ Hfilter).
  intros Hnil. apply fmap_nil_inv in Hnil.
  apply (f_equal length) in Hnil.
  rewrite SortAddresses_Permutation, !length_fmap,
    SortAddresses_Permutation in Hnil.
  by destruct addrs'.
Qed.
End ResponseFacts.

Lemma response_entries_have_no_duplicates_witness :
  NoDup (params.IngressAddresses sampleDbEntry)
  ∧ NoDup (params.EgressSubnets sampleDbEntry)
  ∧ Forall (λ device, NoDup (params.Address <$> params.Addresses device))
      (params.Info sampleDbEntry)
  ∧ (params.Error_ sampleDbEntry ≠ None
     → sampleDbEntry = bindingNotValid (H := sampleExternals) "db").
Proof.
  apply (response_entries_have_no_duplicates (H := sampleExternals)
           sampleBase sampleRequest 0 0
           (ProcessAPIRequest (H := sampleExternals) sampleBase
              sampleRequest 0).1.1).
  - vm_compute. reflexivity.
  - vm_compute. reflexivity.
Defined.

Lemma same_space_same_entry_witness :
  params.Results
    (ProcessAPIRequest (H := sampleExternals) sampleBase
       samplePlainRequest 0).1.1 !! "db"
  = params.Results
      (ProcessAPIRequest (H := sampleExternals) sampleBase
         samplePlainRequest 0).1.1 !! "website".
Proof.
  apply (same_space_same_entry (H := sampleExternals) sampleBase
           ["db"; "website"] 0 0 _ "db" "website" "0").
  - vm_compute. reflexivity.
  - rewrite !elem_of_cons. tauto.
  - rewrite !elem_of_cons. tauto.
  - reflexivity.
  - reflexivity.
Defined.

Lemma ingress_nonempty_when_unit_has_address_witness :
  ∃ info,
    params.Results
      (ProcessAPIRequest (H := sampleExternals) sampleBase
         sampleRequest 0).1.1 !! "db" = Some info
    ∧ params.Error_ info = None
    ∧ params.IngressAddresses info ≠ [].
Proof.
  apply (ingress_nonempty_when_unit_has_address (H := sampleExternals)
           sampleBase sampleRequest 0 0 _ "db" sampleAddrs).
  - vm_compute. reflexivity.
  - cbn. rewrite !elem_of_cons. tauto.
  - reflexivity.
  - reflexivity.
  - discriminate.
Defined.

(** ** The statuses of the LXD profile upgrade *)

Section StatusFacts.
Context (IsCodeNotFound : params.Error → bool).

Lemma collectStatuses_spec statuses results :
  lxdprofile.collectStatuses IsCodeNotFound statuses results =
    match list_find (λ res, is_Some (lxdprofile.Error_ res)) results with
    | None => inl (statuses ++ (lxdprofile.Status <$> results))
    | Some (_, res) =>
        match lxdprofile.Error_ res with
        | Some err =>
            if IsCodeNotFound err then inr (lxdprofile.NotFoundError err)
            else inr (lxdprofile.ResultError err)
        | None => inl []
        end
    end.
Proof.
  revert statuses. induction results as [|res rest IH]; intros statuses.
  - cbn. by rewrite app_nil_r.
  - cbn. destruct (lxdprofile.Error_ res) as [err|] eqn:Herr.
    + rewrite decide_True by eauto. cbn. by rewrite Herr.
    + rewrite decide_False by (by intros []). rewrite IH.
      destruct (list_find _ rest) as [[i res']|]; cbn; [done|].
      by rewrite <- app_assoc.
Qed.

(** X15. [UpgradeCharmProfileUnitStatus] returns the statuses exactly
    when the call succeeds and no result carries an error: one status per
    result, in the order of the results. Otherwise it returns the error of
    the call, or the error of the first result that carries one, wrapped
    as not-found when its code is not-found, and no status. *)
Theorem UpgradeCharmProfileUnitStatus_statuses_or_first_error
    (u : lxdprofile.LXDProfileAPI) :
  (∀ statuses,
     lxdprofile.UpgradeCharmProfileUnitStatus IsCodeNotFound u = inl statuses
     ↔ ∃ results,
         lxdprofile.facade u "UpgradeCharmProfileUnitStatus"
           [lxdprofile.tag u] = Ok results
         ∧ Forall (λ res, lxdprofile.Error_ res = None) results
         ∧ statuses = lxdprofile.Status <$> results)
  ∧ (∀ before res rest err,
       lxdprofile.facade u "UpgradeCharmProfileUnitStatus"
         [lxdprofile.tag u] = Ok (before ++ res :: rest) →
       Forall (λ res, lxdprofile.Error_ res = None) before →
       lxdprofile.Error_ res = Some err →
       lxdprofile.UpgradeCharmProfileUnitStatus IsCodeNotFound u
       = inr (if IsCodeNotFound err then lxdprofile.NotFoundError err
              else lxdprofile.ResultError err))
  ∧ (∀ err,
       lxdprofile.facade u "UpgradeCharmProfileUnitStatus"
         [lxdprofile.tag u] = Err err →
       lxdprofile.UpgradeCharmProfileUnitStatus IsCodeNotFound u
       = inr (lxdprofile.FacadeError err)).
Proof.
  unfold lxdprofile.UpgradeCharmProfileUnitStatus.
  split; [|split].
  - intros statuses.
    destruct (lxdprofile.facade u _ _) as [results|err]; [|split].
    + rewrite collectStatuses_spec.
      destruct (list_find _ results) as [[i res]|] eqn:Hfind.
      * apply list_find_Some in Hfind as (Hi & [err Herr] & _).
        rewrite Herr. split.
        -- by destruct (IsCodeNotFound err).
        -- intros (results' & ? & Hall & _). simplify_eq.
           apply list_elem_of_lookup_2 in Hi.
           rewrite Forall_forall in Hall. rewrite (Hall _ Hi) in Herr. done.
      * apply list_find_None in Hfind. cbn. split.
        -- intros ?; simplify_eq. exists results. repeat split; try done.
           eapply Forall_impl; [exact Hfind|]. cbn. intros res Hres.
           destruct (lxdprofile.Error_ res); [|done]. exfalso. eauto.
        -- intros (results' & ? & _ & ->). by simplify_eq.
    + done.
    + by intros (results & ? & _).
  - intros before res rest err -> Hbefore Herr.
    revert Hbefore. generalize (@nil string).
    induction before as [|b before IH]; intros statuses Hbefore; cbn.
    + rewrite Herr. by destruct (IsCodeNotFound err).
    + apply Forall_cons in Hbefore as [-> Hbefore]. by apply IH.
  - by intros err ->.
Qed.
End StatusFacts.

Lemma UpgradeCharmProfileUnitStatus_statuses_or_first_error_witness :
  lxdprofile.UpgradeCharmProfileUnitStatus
    (λ err, bool_decide (params.Code err = "not found")) sampleLXDProfileAPI
  = inr (lxdprofile.NotFoundError
           {| params.Message := "unit gone"; params.Code := "not found" |}).
Proof.
  destruct (UpgradeCharmProfileUnitStatus_statuses_or_first_error
              (λ err, bool_decide (params.Code err = "not found"))
              sampleLXDProfileAPI) as (_ & Hfirst & _).
  apply (Hfirst
    [ {| lxdprofile.Error_ := None; lxdprofile.Status := "success" |};
      {| lxdprofile.Error_ := None; lxdprofile.Status := "not required" |} ]
    {| lxdprofile.Error_ :=
         Some {| params.Message := "unit gone"; params.Code := "not found" |};
       lxdprofile.Status := "" |} []
    {| params.Message := "unit gone"; params.Code := "not found" |}).
  - reflexivity.
  - repeat constructor.
  - reflexivity.
Defined.
